(** * The travelling-salesman notebook: MTZ formulation and tour decoding

    A shallow embedding of the notebook cells that build the integer
    program (edge variables, degree constraints, Miller-Tucker-Zemlin
    order constraints) and of the cell that follows the solver's edge
    values to print the tour.  Python dictionaries are finite maps, Python
    lists are lists, and every operation that can raise (dictionary
    indexing, [list.index], [list.pop]) returns in an exception monad. *)

From Stdlib Require Import ZArith QArith Lia.
From stdpp Require Import base option list gmap strings.

Set Warnings "-register-all,-clear-no-such-hyp".

Local Open Scope string_scope.
Local Open Scope list_scope.
Local Open Scope Z_scope.

(** ** Python exceptions and the primitives that raise them *)

Inductive PyExn : Type :=
| KeyError
| ValueError
| IndexError.

Inductive result (A : Type) : Type :=
| Ok (a : A)
| Raise (e : PyExn).
Arguments Ok {A} a.
Arguments Raise {A} e.

#[global] Instance result_ret : MRet result := λ A a, Ok a.
#[global] Instance result_bind : MBind result := λ A B f m,
  match m with
  | Ok a => f a
  | Raise e => Raise e
  end.

#[global] Instance result_fmap : FMap result := λ A B f m,
  match m with
  | Ok a => Ok (f a)
  | Raise e => Raise e
  end.

(** [d[k]] on a dictionary. *)
Definition getitem `{Countable K} {V} (d : gmap K V) (k : K) : result V :=
  match d !! k with
  | Some v => Ok v
  | None => Raise KeyError
  end.

(** [l[i]] on a list, for a non-negative index. *)
Definition list_getitem {A} (l : list A) (i : nat) : result A :=
  match l !! i with
  | Some v => Ok v
  | None => Raise IndexError
  end.

(** [l.index(v)]: position of the first occurrence. *)
Fixpoint list_index (l : list string) (v : string) : result nat :=
  match l with
  | [] => Raise ValueError
  | a :: l' => if decide (a = v) then Ok 0%nat else S <$> list_index l' v
  end.

(** [l.pop(i)]: the element taken out and the list that remains. *)
Definition list_pop {A} (l : list A) (i : nat) : result (A * list A) :=
  match l !! i with
  | Some v => Ok (v, delete i l)
  | None => Raise IndexError
  end.

(** Monadic loops over a list. *)
Fixpoint for_each {A S} (f : S → A → result S) (s : S) (l : list A) : result S :=
  match l with
  | [] => Ok s
  | a :: l' => s' ← f s a; for_each f s' l'
  end.

Fixpoint comprehension {A B} (f : A → result B) (l : list A) : result (list B) :=
  match l with
  | [] => Ok []
  | a :: l' => b ← f a; bs ← comprehension f l'; Ok (b :: bs)
  end.

(** Python's [sum] over integers. *)
Definition sum (l : list Z) : Z := foldr Z.add 0 l.

(** ** The data of the model *)

Abbreviation site := string (only parsing).
Abbreviation edge := (string * string)%type (only parsing).

Inductive LpCategory : Type := LpContinuous | LpInteger | LpBinary.

(** The identity of a decision variable: the dictionary it lives in and
    its key there. *)
Inductive VarId : Type :=
| X (e : edge)
| U (i : site).

Record LpVariable : Type := mkLpVariable {
  var : VarId;
  lowBound : Z;
  upBound : Z;
  cat : LpCategory
}.

(** Expressions as the cells write them. *)
Inductive LpExpr : Type :=
| EVar (v : LpVariable)
| ENum (c : Z)
| ESub (a b : LpExpr)
| EMul (a b : LpExpr)
| lpSum (es : list LpExpr).

Inductive LpSense : Type := LpConstraintLE | LpConstraintEQ | LpConstraintGE.

Record LpConstraint : Type := mkLpConstraint {
  lhs : LpExpr;
  sense : LpSense;
  rhs : LpExpr
}.

Notation "a ==' b" := (mkLpConstraint a LpConstraintEQ b) (at level 70, no associativity).
Notation "a <=' b" := (mkLpConstraint a LpConstraintLE b) (at level 70, no associativity).

Record LpProblem : Type := mkLpProblem {
  objective : option LpExpr;
  constraints : list LpConstraint
}.

(** [prob += constraint] and [prob += expression]. *)
Definition add_constraint (prob : LpProblem) (c : LpConstraint) : LpProblem :=
  {| objective := objective prob; constraints := constraints prob ++ [c] |}.

Definition set_objective (prob : LpProblem) (e : LpExpr) : LpProblem :=
  {| objective := Some e; constraints := constraints prob |}.

(** An integer assignment to the variables, and the value of an
    expression under it. *)
Fixpoint value (a : VarId → Z) (e : LpExpr) : Z :=
  match e with
  | EVar v => a (var v)
  | ENum c => c
  | ESub e1 e2 => value a e1 - value a e2
  | EMul e1 e2 => value a e1 * value a e2
  | lpSum es => foldr (λ e acc, value a e + acc) 0 es
  end.

Definition satisfies (a : VarId → Z) (c : LpConstraint) : Prop :=
  match sense c with
  | LpConstraintLE => value a (lhs c) ≤ value a (rhs c)
  | LpConstraintEQ => value a (lhs c) = value a (rhs c)
  | LpConstraintGE => value a (rhs c) ≤ value a (lhs c)
  end.

Definition in_domain (a : VarId → Z) (v : LpVariable) : Prop :=
  lowBound v ≤ a (var v) ≤ upBound v.

(** ** The cells that build the model *)

(** [dict(((a,b), d) for a in sites for b in sites if a != b)]; a later
    pair with the same key replaces the earlier one. *)
Definition dict {V} `{Countable K} (items : list (K * V)) : gmap K V :=
  foldl (λ m kv, <[kv.1 := kv.2]> m) ∅ items.

Definition distances_cell (sites : list site) (d : site → site → Z) : gmap edge Z :=
  dict (a ← sites; b ← sites; if decide (a ≠ b) then [((a, b), d a b)] else []).

(** [LpVariable.dicts(name, indices, lowBound, upBound, cat)] for a
    dictionary of indices and for a list of indices. *)
Definition LpVariable_dicts_x {V} (indices : gmap edge V) (lo hi : Z) (c : LpCategory)
  : gmap edge LpVariable :=
  map_imap (λ k _, Some (mkLpVariable (X k) lo hi c)) indices.

Definition LpVariable_dicts_u (indices : list site) (lo hi : Z) (c : LpCategory)
  : gmap site LpVariable :=
  dict ((λ i, (i, mkLpVariable (U i) lo hi c)) <$> indices).

(** [cost = lpSum([x[(i,j)]*distances[(i,j)] for (i,j) in distances])] *)
Definition objective_cell (distances : gmap edge Z) (x : gmap edge LpVariable)
  (prob : LpProblem) : result LpProblem :=
  terms ← comprehension (λ ij, xij ← getitem x ij; dij ← getitem distances ij;
                                Ok (EMul (EVar xij) (ENum dij)))
                        (map_to_list distances).*1;
  Ok (set_objective prob (lpSum terms)).

(** The loop of degree constraints. *)
Definition inbound (sites : list site) (x : gmap edge LpVariable) (k : site)
  : result (list LpExpr) :=
  comprehension (λ i, EVar <$> getitem x (i, k))
                (filter (λ i, (i, k) ∈ dom x) sites).

Definition outbound (sites : list site) (x : gmap edge LpVariable) (k : site)
  : result (list LpExpr) :=
  comprehension (λ i, EVar <$> getitem x (k, i))
                (filter (λ i, (k, i) ∈ dom x) sites).

Definition degree_cell (sites : list site) (x : gmap edge LpVariable)
  (prob : LpProblem) : result LpProblem :=
  for_each (λ prob k,
      ins ← inbound sites x k;
      let prob := add_constraint prob (lpSum ins ==' ENum 1) in
      outs ← outbound sites x k;
      Ok (add_constraint prob (lpSum outs ==' ENum 1)))
    prob sites.

(** The loop of subtour-elimination constraints. *)
Definition mtz (N : Z) (ui uj xij : LpVariable) : LpConstraint :=
  ESub (EVar ui) (EVar uj) <=' ESub (EMul (ENum N) (ESub (ENum 1) (EVar xij))) (ENum 1).

Definition subtour_cell (sites : list site) (x : gmap edge LpVariable)
  (u : gmap site LpVariable)
  (prob : LpProblem) : result LpProblem :=
  let N := Z.of_nat (length sites) in
  for_each (λ prob i,
      for_each (λ prob j,
          if decide (i ≠ j ∧ (i ≠ "org" ∧ j ≠ "org") ∧ (i, j) ∈ dom x) then
            ui ← getitem u i; uj ← getitem u j; xij ← getitem x (i, j);
            Ok (add_constraint prob (mtz N ui uj xij))
          else Ok prob)
        prob sites)
    prob sites.

(** The notebook's globals once the cells up to the degree loop have run,
    and once every model cell has run. *)
Record notebook : Type := mkNotebook {
  nb_x : gmap edge LpVariable;
  nb_u : gmap site LpVariable;
  nb_prob : LpProblem
}.

Definition degree_model (sites : list site) (distances : gmap edge Z) : result notebook :=
  let prob := mkLpProblem None [] in
  let x := LpVariable_dicts_x distances 0 1 LpBinary in
  prob ← objective_cell distances x prob;
  prob ← degree_cell sites x prob;
  Ok (mkNotebook x ∅ prob).

Definition build_model (sites : list site) (distances : gmap edge Z) : result notebook :=
  nb ← degree_model sites distances;
  let u := LpVariable_dicts_u sites 0 (Z.of_nat (length sites) - 1) LpInteger in
  prob ← subtour_cell sites (nb_x nb) u (nb_prob nb);
  Ok (mkNotebook (nb_x nb) u prob).

(** An assignment is feasible when every variable of [x] and [u] lies
    within its bounds and every constraint added so far holds. *)
Definition feasible (nb : notebook) (a : VarId → Z) : Prop :=
  (∀ e v, nb_x nb !! e = Some v → in_domain a v)
  ∧ (∀ i v, nb_u nb !! i = Some v → in_domain a v)
  ∧ Forall (satisfies a) (constraints (nb_prob nb)).

Definition assign (xa : edge → Z) (ua : site → Z) (v : VarId) : Z :=
  match v with
  | X e => xa e
  | U i => ua i
  end.

(** ** The cell that follows the solved edges

    After [prob.solve()] every variable of [x] carries a number in
    [varValue]; [xv] is the dictionary [x] read through that attribute.
    The numbers are binary floats; every finite float is a rational and
    [== 1] on floats compares the values, so the values are kept as
    rationals and the test is [Qeq_bool _ 1]. *)

Record decoder : Type := mkDecoder {
  sites_left : list site;
  org : site;
  tour : list site
}.

(** [tour.append(sites_left.pop(sites_left.index(k)))] *)
Definition move (st : decoder) (k : site) : result decoder :=
  i ← list_index (sites_left st) k;
  '(s, rest) ← list_pop (sites_left st) i;
  Ok {| sites_left := rest; org := org st; tour := tour st ++ [s] |}.

(** The three lines before the loop, from origin [org0]. *)
Definition start (sites : list site) (org0 : site) : result decoder :=
  move {| sites_left := sites; org := org0; tour := [] |} org0.

(** The [for k in sites_left] loop with its [break]. *)
Fixpoint for_k (xv : gmap edge Q) (st : decoder) (ks : list site) : result decoder :=
  match ks with
  | [] => Ok st
  | k :: ks' =>
      v ← getitem xv (org st, k);
      if Qeq_bool v 1 then
        st' ← move st k;
        Ok {| sites_left := sites_left st'; org := k; tour := tour st' |}
      else for_k xv st ks'
  end.

Definition body (xv : gmap edge Q) (st : decoder) : result decoder :=
  for_k xv st (sites_left st).

(** The [while len(sites_left) > 0] loop; [None] when the fuel runs out
    before the loop ends. *)
Fixpoint while (xv : gmap edge Q) (fuel : nat) (st : decoder) : option (result decoder) :=
  match fuel with
  | O => None
  | S fuel' =>
      if decide (0 < length (sites_left st))%nat then
        match body xv st with
        | Ok st' => while xv fuel' st'
        | Raise e => Some (Raise e)
        end
      else Some (Ok st)
  end.

(** The state after [n] passes through the loop body. *)
Fixpoint iterate (xv : gmap edge Q) (n : nat) (st : decoder) : result decoder :=
  match n with
  | O => Ok st
  | S n' => st' ← body xv st; iterate xv n' st'
  end.

(** [[distances[(tour[i-1], tour[i])] for i in range(1,len(tour))]] *)
Definition tour_legs (distances : gmap edge Z) (tour : list site) : result (list Z) :=
  comprehension (λ i, a ← list_getitem tour (i - 1); b ← list_getitem tour i;
                       getitem distances (a, b))
                (seq 1 (length tour - 1)).

(** The whole cell from origin [org0], with the total of the last cell. *)
Definition decode_from (org0 : site) (sites : list site) (xv : gmap edge Q)
  (distances : gmap edge Z) (fuel : nat) : option (result (list site * Z)) :=
  match start sites org0 with
  | Raise e => Some (Raise e)
  | Ok st =>
      match while xv fuel st with
      | None => None
      | Some (Raise e) => Some (Raise e)
      | Some (Ok st) =>
          let tour := tour st ++ ["org"] in
          Some (legs ← tour_legs distances tour; Ok (tour, sum legs))
      end
  end.

(** The cell as the notebook has it: [org = 'org']. *)
Definition decode := decode_from "org".

(** ** Notions used in the statements *)

(** The keys generated by the distance cell. *)
Definition ordered_pairs (sites : list site) : list edge :=
  a ← sites; b ← sites; if decide (a ≠ b) then [(a, b)] else [].

(** A distance dictionary is complete for [sites] when its keys are
    exactly the ordered pairs of distinct sites. *)
Definition complete (sites : list site) (distances : gmap edge Z) : Prop :=
  ∀ i j, (i, j) ∈ dom distances ↔ i ∈ sites ∧ j ∈ sites ∧ i ≠ j.

(** The variables the two dictionaries hold. *)
Definition xvar (e : edge) : LpVariable := mkLpVariable (X e) 0 1 LpBinary.
Definition uvar (N : Z) (i : site) : LpVariable := mkLpVariable (U i) 0 (N - 1) LpInteger.

(** [prob += c] for each constraint of a list in turn. *)
Definition add_constraints (prob : LpProblem) (cs : list LpConstraint) : LpProblem :=
  foldl add_constraint prob cs.

(** The constraints of the degree loop, for a dictionary [x] with the
    given keys. *)
Definition inbound_sum (sites : list site) (keys : gset edge) (k : site) : LpExpr :=
  lpSum ((λ i, EVar (xvar (i, k))) <$> filter (λ i, (i, k) ∈ keys) sites).

Definition outbound_sum (sites : list site) (keys : gset edge) (k : site) : LpExpr :=
  lpSum ((λ i, EVar (xvar (k, i))) <$> filter (λ i, (k, i) ∈ keys) sites).

Definition degree_constraints (sites : list site) (keys : gset edge) : list LpConstraint :=
  k ← sites; [inbound_sum sites keys k ==' ENum 1; outbound_sum sites keys k ==' ENum 1].

(** The constraints of the subtour-elimination loop. *)
Definition mtz_constraints (sites : list site) (keys : gset edge) : list LpConstraint :=
  let N := Z.of_nat (length sites) in
  i ← sites; j ← sites;
  if decide (i ≠ j ∧ (i ≠ "org" ∧ j ≠ "org") ∧ (i, j) ∈ keys)
  then [mtz N (uvar N i) (uvar N j) (xvar (i, j))] else [].

(** The terms of the objective. *)
Definition objective_terms (distances : gmap edge Z) : list LpExpr :=
  (λ ed, EMul (EVar (xvar ed.1)) (ENum ed.2)) <$> map_to_list distances.

(** Whether an expression mentions a variable. *)
Fixpoint mentions (v : VarId) (e : LpExpr) : Prop :=
  match e with
  | EVar w => var w = v
  | ENum _ => False
  | ESub e1 e2 => mentions v e1 ∨ mentions v e2
  | EMul e1 e2 => mentions v e1 ∨ mentions v e2
  | lpSum es => foldr (λ e acc, mentions v e ∨ acc) False es
  end.

(** A constraint touches a site when it mentions the order variable of
    the site or an edge variable into or out of it. *)
Definition touches (s : site) (c : LpConstraint) : Prop :=
  ∃ v, (mentions v (lhs c) ∨ mentions v (rhs c))
       ∧ (v = U s ∨ ∃ k, v = X (s, k) ∨ v = X (k, s)).

(** The state once [k] has been moved from [sites_left] to the tour and
    made the current site. *)
Definition advance (st : decoder) (k : site) (rest : list site) : decoder :=
  {| sites_left := rest; org := k; tour := tour st ++ [k] |}.

(** Every edge from [cur] to a site of [ks] has a value, and none of the
    values equals 1. *)
Definition misses (xv : gmap edge Q) (cur : site) (ks : list site) : Prop :=
  ∀ k, k ∈ ks → ∃ v, xv !! (cur, k) = Some v ∧ ¬ (v == 1)%Q.

(** The tour and the sites left rearrange the list of sites. *)
Definition partition (sites : list site) (st : decoder) : Prop :=
  tour st ++ sites_left st ≡ₚ sites.

(** Three sites, their distances, and solver values for them. *)
Definition abc_sites : list site := ["org"; "A"; "B"].

Definition abc_tour_values : gmap edge Q :=
  dict [(("org", "A"), 1%Q); (("org", "B"), 0%Q); (("A", "org"), 0%Q);
        (("A", "B"), 1%Q); (("B", "org"), 1%Q); (("B", "A"), 0%Q)].

(** An edge value within [1e-6] of 1 that is not 1. *)
Definition near_one : Q := 1073741823 # 1073741824.

Definition abc_near_values : gmap edge Q :=
  dict [(("org", "A"), near_one); (("org", "B"), 0%Q); (("A", "org"), 0%Q);
        (("A", "B"), 1%Q); (("B", "org"), 1%Q); (("B", "A"), 0%Q)].

Definition abc_distances : gmap edge Z := distances_cell abc_sites (λ _ _, 10).

(** Distances that differ from pair to pair, in the range the notebook
    draws them from. *)
Definition abc_leg_length (a b : site) : Z :=
  if decide (a = "org") then (if decide (b = "A") then 11 else 41)
  else if decide (a = "A") then (if decide (b = "B") then 23 else 47)
  else (if decide (b = "org") then 35 else 43).

Definition abc_varied_distances : gmap edge Z := distances_cell abc_sites abc_leg_length.

(** [v] lies within [eps] of [w]. *)
Definition within (eps v w : Q) : Prop := (w - eps <= v)%Q ∧ (v <= w + eps)%Q.

Definition abc_start : decoder :=
  {| sites_left := ["A"; "B"]; org := "org"; tour := ["org"] |}.

Definition abc_ones : gmap edge Q :=
  dict [(("org", "A"), 1%Q); (("org", "B"), 1%Q); (("A", "org"), 1%Q);
        (("A", "B"), 1%Q); (("B", "org"), 1%Q); (("B", "A"), 1%Q)].

Definition abc_zeros : gmap edge Q :=
  dict [(("org", "A"), 0%Q); (("org", "B"), 0%Q); (("A", "org"), 0%Q);
        (("A", "B"), 0%Q); (("B", "org"), 0%Q); (("B", "A"), 0%Q)].

Definition start_at_A_values : gmap edge Q :=
  dict [(("A", "org"), 1%Q); (("A", "B"), 0%Q); (("org", "B"), 1%Q);
        (("org", "A"), 0%Q); (("B", "A"), 1%Q); (("B", "org"), 0%Q)].

Definition abc_without_AB : gmap edge Z := delete ("A", "B") abc_distances.

(** What the bounds of [x] and the degree constraints say. *)
Record degree_facts (sites : list site) (xa : edge → Z) : Prop := {
  df_binary : ∀ i j, i ∈ sites → j ∈ sites → i ≠ j → 0 ≤ xa (i, j) ≤ 1;
  df_inbound : ∀ k, k ∈ sites →
    sum ((λ i, xa (i, k)) <$> filter (λ i, i ≠ k) sites) = 1;
  df_outbound : ∀ k, k ∈ sites →
    sum ((λ i, xa (k, i)) <$> filter (λ i, i ≠ k) sites) = 1
}.

(** What the bounds of [u] and the subtour constraints say. *)
Record order_facts (sites : list site) (xa : edge → Z) (ua : site → Z) : Prop := {
  of_bounds : ∀ i, i ∈ sites → 0 ≤ ua i ≤ Z.of_nat (length sites) - 1;
  of_mtz : ∀ i j, i ∈ sites → j ∈ sites → i ≠ j → i ≠ "org" → j ≠ "org" →
    ua i - ua j ≤ Z.of_nat (length sites) * (1 - xa (i, j)) - 1
}.

(** The pairs [(t[i-1], t[i])] that [tour_legs] looks up. *)
Definition legs_of (t : list site) : list edge := zip t (tail t).

(** The closed walk of a cycle: the cycle followed by its first site. *)
Definition closed (c : list site) : list site := c ++ take 1 c.

(** The assignment that selects exactly the edges of [L]. *)
Definition indicator (L : list edge) (e : edge) : Z := if decide (e ∈ L) then 1 else 0.

(** Every site is the source of one edge of [L] and the target of one,
    and no edge of [L] is a loop. *)
Record cover (sites : list site) (L : list edge) : Prop := {
  cover_fst : L.*1 ≡ₚ sites;
  cover_snd : L.*2 ≡ₚ sites;
  cover_irrefl : ∀ a b, (a, b) ∈ L → a ≠ b
}.

(** [xa] has value 1 on the legs of the closed cycle [c] and 0 on every
    other pair of distinct sites. *)
Definition encodes (sites c : list site) (xa : edge → Z) : Prop :=
  ∀ i j, i ∈ sites → j ∈ sites → i ≠ j → xa (i, j) = indicator (legs_of (closed c)) (i, j).

(** [xa] is a single cycle through all the sites that starts and ends at
    ['org']. *)
Definition hamiltonian (sites : list site) (xa : edge → Z) : Prop :=
  ∃ rest, "org" :: rest ≡ₚ sites ∧ encodes sites ("org" :: rest) xa.

(** [c] is a cycle of selected edges. *)
Definition cycle_in (xa : edge → Z) (c : list site) : Prop :=
  (2 ≤ length c)%nat ∧ NoDup c ∧ ∀ e, e ∈ legs_of (closed c) → xa e = 1.

(** [xa] contains two disjoint cycles among the sites. *)
Definition has_subtours (sites : list site) (xa : edge → Z) : Prop :=
  ∃ c1 c2, cycle_in xa c1 ∧ cycle_in xa c2
           ∧ (∀ s, s ∈ c1 → s ∉ c2)
           ∧ (∀ s, s ∈ c1 → s ∈ sites) ∧ (∀ s, s ∈ c2 → s ∈ sites).

(** The position of a site in a tour, as its rank. *)
Definition rank (c : list site) (i : site) : Z :=
  match list_index c i with
  | Ok p => Z.of_nat p
  | Raise _ => 0
  end.

(** A selected edge between two distinct sites. *)
Definition selected (sites : list site) (xa : edge → Z) (i j : site) : Prop :=
  i ∈ sites ∧ j ∈ sites ∧ i ≠ j ∧ xa (i, j) = 1.

(** A sequence of sites whose consecutive pairs are selected edges. *)
Definition walk (sites : list site) (xa : edge → Z) (p : list site) : Prop :=
  ∀ a b, (a, b) ∈ legs_of p → selected sites xa a b.

(** The assignment that selects the legs of two cycles. *)
Definition two_cycles (c1 c2 : list site) : edge → Z :=
  indicator (legs_of (closed c1) ++ legs_of (closed c2)).

Ltac eval_indicator :=
  match goal with
  | |- context [indicator ?L ?e] =>
      let v := eval vm_compute in (indicator L e) in change (indicator L e) with v
  end.

(** Four sites, and two sites without ['org']. *)
Definition abcd_sites : list site := ["org"; "A"; "B"; "C"].

(** The solver's values read back the integer assignment [xa] on every
    variable of [x]. *)
Definition reads (xv : gmap edge Q) (distances : gmap edge Z) (xa : edge → Z) : Prop :=
  ∀ e, e ∈ dom distances → xv !! e = Some (inject_Z (xa e)).

(** The tour [org, A, B, org] as an assignment. *)
Definition abc_tour : edge → Z := indicator (legs_of (closed abc_sites)).

Definition ab_sites : list site := ["A"; "B"].

(** Every consecutive pair of the tour built so far is an edge of value
    1, and the current site is the last of the tour. *)
Definition follows_ones (xv : gmap edge Q) (st : decoder) : Prop :=
  last (tour st) = Some (org st)
  ∧ ∀ e, e ∈ legs_of (tour st) → ∃ v, xv !! e = Some v ∧ (v == 1)%Q.

(** Solver values that lead from ['org'] to [A] to [B] but not back. *)
Definition abc_open_values : gmap edge Q :=
  dict [(("org", "A"), 1%Q); (("org", "B"), 0%Q); (("A", "org"), 0%Q);
        (("A", "B"), 1%Q); (("B", "org"), 0%Q); (("B", "A"), 0%Q)].

(** A site list that names [A] twice. *)
Definition aa_sites : list site := ["org"; "A"; "A"].

(** Solver values that read back an integer assignment exactly. *)
Definition values_of (distances : gmap edge Z) (xa : edge → Z) : gmap edge Q :=
  map_imap (λ e _, Some (inject_Z (xa e))) distances.

(** Four sites in two cycles: ['org'] with [A], and [B] with [C]. *)
Definition abcd_subtours : edge → Z := two_cycles ["org"; "A"] ["B"; "C"].

(** * Properties *)

(** ** The exception monad and the loops *)

Lemma for_each_pure {A S} (f : S → A → result S) (g : S → A → S) l :
  ∀ s, (∀ s a, a ∈ l → f s a = Ok (g s a)) → for_each f s l = Ok (foldl g s l).
Proof.
  induction l as [|a l IH]; intros s Hf; simpl; [done|].
  rewrite Hf by left. simpl. apply IH. intros; apply Hf; by right.
Qed.

Lemma comprehension_pure {A B} (f : A → result B) (g : A → B) l :
  (∀ a, a ∈ l → f a = Ok (g a)) → comprehension f l = Ok (g <$> l).
Proof.
  induction l as [|a l IH]; intros Hf; simpl; [done|].
  rewrite Hf by left. simpl. rewrite IH; [done|]. intros; apply Hf; by right.
Qed.

Lemma getitem_Some `{Countable K} {V} (d : gmap K V) k v :
  d !! k = Some v → getitem d k = Ok v.
Proof. unfold getitem. by intros ->. Qed.

(** ** Dictionaries built from lists *)

Lemma dict_lookup_acc `{Countable K} {V} (f : K → V) (l : list K) :
  ∀ (m : gmap K V) k,
    foldl (λ m kv, <[kv.1 := kv.2]> m) m ((λ k, (k, f k)) <$> l) !! k
    = if decide (k ∈ l) then Some (f k) else m !! k.
Proof.
  induction l as [|a l IH]; intros m k; simpl.
  - destruct (decide (k ∈ [])) as [Hk|Hk]; [by apply elem_of_nil in Hk|done].
  - rewrite IH. destruct (decide (k ∈ l)) as [Hl|Hl].
    + rewrite decide_True; [done|by right].
    + destruct (decide (a = k)) as [->|Hne].
      * rewrite decide_True by left. by rewrite lookup_insert_eq.
      * rewrite decide_False; [by rewrite lookup_insert_ne|].
        intros [?|?]%elem_of_cons; congruence.
Qed.

Lemma dict_lookup `{Countable K} {V} (f : K → V) (l : list K) k :
  dict ((λ k, (k, f k)) <$> l) !! k = if decide (k ∈ l) then Some (f k) else None.
Proof. unfold dict. by rewrite dict_lookup_acc, lookup_empty. Qed.

Lemma elem_of_ordered_pairs sites i j :
  (i, j) ∈ ordered_pairs sites ↔ i ∈ sites ∧ j ∈ sites ∧ i ≠ j.
Proof.
  unfold ordered_pairs. rewrite list_elem_of_bind. split.
  - intros (a & Hb & Ha). apply list_elem_of_bind in Hb as (b & Hab & Hb).
    case_decide; [|by apply elem_of_nil in Hab].
    apply list_elem_of_singleton in Hab. by simplify_eq.
  - intros (Hi & Hj & Hne). exists i. split; [|done].
    apply list_elem_of_bind. exists j. split; [|done].
    rewrite decide_True by done. by left.
Qed.

Lemma pairs_fmap (d : site → site → Z) (l1 l2 : list site) :
  (a ← l1; b ← l2; if decide (a ≠ b) then [((a, b), d a b)] else [])
  = (λ e, (e, d e.1 e.2)) <$> (a ← l1; b ← l2; if decide (a ≠ b) then [(a, b)] else []).
Proof.
  induction l1 as [|a l1 IH]; [done|].
  rewrite !bind_cons, fmap_app, IH. f_equal. clear IH.
  induction l2 as [|b l2 IH2]; [done|].
  rewrite !bind_cons, fmap_app, IH2. f_equal. by case_decide.
Qed.

Lemma distances_cell_pairs sites d :
  distances_cell sites d = dict ((λ e, (e, d e.1 e.2)) <$> ordered_pairs sites).
Proof. unfold distances_cell, ordered_pairs. by rewrite pairs_fmap. Qed.

Lemma distances_cell_lookup sites d i j :
  distances_cell sites d !! (i, j)
  = if decide (i ∈ sites ∧ j ∈ sites ∧ i ≠ j) then Some (d i j) else None.
Proof.
  rewrite distances_cell_pairs, dict_lookup. simpl.
  destruct (decide ((i, j) ∈ ordered_pairs sites)) as [Hin|Hin];
    rewrite elem_of_ordered_pairs in Hin; [by rewrite decide_True|by rewrite decide_False].
Qed.

Lemma distances_cell_complete sites d : complete sites (distances_cell sites d).
Proof.
  intros i j. rewrite elem_of_dom, distances_cell_lookup.
  case_decide; split; try done; try (by eexists); by intros [? ?].
Qed.

(** ** What the model cells build *)

Lemma x_lookup {V} (indices : gmap edge V) lo hi c e :
  LpVariable_dicts_x indices lo hi c !! e
  = (λ _, mkLpVariable (X e) lo hi c) <$> indices !! e.
Proof.
  unfold LpVariable_dicts_x. rewrite map_lookup_imap. by destruct (indices !! e).
Qed.

Lemma x_dom {V} (indices : gmap edge V) lo hi c :
  dom (LpVariable_dicts_x indices lo hi c) = dom indices.
Proof.
  apply set_eq. intros e. rewrite !elem_of_dom, x_lookup.
  destruct (indices !! e); simpl; split; intros [? ?]; by eauto.
Qed.

Lemma u_lookup sites lo hi c i :
  LpVariable_dicts_u sites lo hi c !! i
  = if decide (i ∈ sites) then Some (mkLpVariable (U i) lo hi c) else None.
Proof. unfold LpVariable_dicts_u. apply (dict_lookup (λ i, mkLpVariable (U i) lo hi c)). Qed.

Lemma add_constraints_app prob cs :
  add_constraints prob cs
  = {| objective := objective prob; constraints := constraints prob ++ cs |}.
Proof.
  unfold add_constraints. revert prob.
  induction cs as [|c cs IH]; intros prob; simpl.
  - rewrite app_nil_r. by destruct prob.
  - rewrite IH. simpl. by rewrite <- app_assoc.
Qed.

Lemma foldl_add_constraints {A} (g : A → list LpConstraint) (l : list A) prob :
  foldl (λ p a, add_constraints p (g a)) prob l = add_constraints prob (l ≫= g).
Proof.
  revert prob. induction l as [|a l IH]; intros prob; [done|].
  rewrite bind_cons. unfold add_constraints at 2. rewrite foldl_app. apply IH.
Qed.

Section Build.
Context (sites : list site) (distances : gmap edge Z).
Let x := LpVariable_dicts_x distances 0 1 LpBinary.
Let N := Z.of_nat (length sites).
Let u := LpVariable_dicts_u sites 0 (N - 1) LpInteger.

Lemma getitem_x e : e ∈ dom x → getitem x e = Ok (xvar e).
Proof.
  intros [v Hv]%elem_of_dom. apply getitem_Some.
  subst x. rewrite x_lookup in Hv |- *. by destruct (distances !! e).
Qed.

Lemma getitem_u i : i ∈ sites → getitem u i = Ok (uvar N i).
Proof.
  intros Hi. apply getitem_Some. subst u. rewrite u_lookup. by rewrite decide_True.
Qed.

Lemma inbound_Ok k :
  inbound sites x k
  = Ok ((λ i, EVar (xvar (i, k))) <$> filter (λ i, (i, k) ∈ dom x) sites).
Proof.
  apply comprehension_pure. intros i [Hi _]%list_elem_of_filter.
  by rewrite getitem_x.
Qed.

Lemma outbound_Ok k :
  outbound sites x k
  = Ok ((λ i, EVar (xvar (k, i))) <$> filter (λ i, (k, i) ∈ dom x) sites).
Proof.
  apply comprehension_pure. intros i [Hi _]%list_elem_of_filter.
  by rewrite getitem_x.
Qed.

Lemma degree_cell_Ok prob :
  degree_cell sites x prob
  = Ok (add_constraints prob (degree_constraints sites (dom x))).
Proof.
  unfold degree_cell, degree_constraints. rewrite <- foldl_add_constraints.
  apply for_each_pure. intros p k _. by rewrite inbound_Ok, outbound_Ok.
Qed.

Lemma subtour_cell_Ok prob :
  subtour_cell sites x u prob
  = Ok (add_constraints prob (mtz_constraints sites (dom x))).
Proof.
  unfold subtour_cell, mtz_constraints. rewrite <- foldl_add_constraints.
  apply for_each_pure. intros p i Hi. rewrite <- foldl_add_constraints.
  apply for_each_pure. intros q j Hj.
  case_decide as Hc; [|done].
  destruct Hc as (_ & _ & Hx).
  fold N. fold u. by rewrite !getitem_u, getitem_x.
Qed.

Lemma objective_cell_Ok prob :
  objective_cell distances x prob = Ok (set_objective prob (lpSum (objective_terms distances))).
Proof.
  unfold objective_cell, objective_terms.
  erewrite (comprehension_pure _ (λ e, EMul (EVar (xvar e))
              (ENum (default 0 (distances !! e))))).
  - simpl. do 3 f_equal. rewrite <- list_fmap_compose.
    apply list_fmap_ext. intros i [e d] Hi. simpl.
    apply list_elem_of_lookup_2, elem_of_map_to_list in Hi. by rewrite Hi.
  - intros e [[e' d] [-> Hd]]%list_elem_of_fmap.
    apply elem_of_map_to_list in Hd. simpl in *.
    rewrite getitem_x, (getitem_Some _ _ _ Hd), Hd; [done|].
    subst x. rewrite x_dom. apply elem_of_dom. by eexists.
Qed.

Lemma degree_model_Ok :
  degree_model sites distances
  = Ok {| nb_x := x; nb_u := ∅;
          nb_prob := {| objective := Some (lpSum (objective_terms distances));
                        constraints := degree_constraints sites (dom distances) |} |}.
Proof.
  unfold degree_model. fold x. rewrite objective_cell_Ok. simpl.
  rewrite degree_cell_Ok. simpl.
  rewrite !add_constraints_app. simpl. subst x. by rewrite x_dom.
Qed.

Lemma build_model_Ok :
  build_model sites distances
  = Ok {| nb_x := x; nb_u := u;
          nb_prob := {| objective := Some (lpSum (objective_terms distances));
                        constraints := degree_constraints sites (dom distances)
                                       ++ mtz_constraints sites (dom distances) |} |}.
Proof.
  unfold build_model. rewrite degree_model_Ok. simpl.
  fold N. fold u. rewrite subtour_cell_Ok. simpl.
  rewrite !add_constraints_app. simpl. subst x. by rewrite x_dom.
Qed.
End Build.

(** ** Values of sums *)

Lemma value_lpSum a es : value a (lpSum es) = sum (value a <$> es).
Proof. simpl. unfold sum. induction es as [|e es IH]; simpl; [done|]. by rewrite IH. Qed.

Lemma value_lpSum_vars a (f : site → edge) (l : list site) :
  value a (lpSum ((λ i, EVar (xvar (f i))) <$> l)) = sum ((λ i, a (X (f i))) <$> l).
Proof. rewrite value_lpSum, <- list_fmap_compose. done. Qed.

(** ** Filters under a complete dictionary *)

Lemma filter_iff_in {A} (P1 P2 : A → Prop)
    `{!∀ x, Decision (P1 x), !∀ x, Decision (P2 x)} (l : list A) :
  (∀ x, x ∈ l → P1 x ↔ P2 x) → filter P1 l = filter P2 l.
Proof.
  induction l as [|a l IH]; intros Hiff; [done|].
  rewrite !filter_cons, IH by (intros; apply Hiff; by right).
  destruct (decide (P1 a)) as [H1|H1], (decide (P2 a)) as [H2|H2]; try done;
    exfalso; apply (Hiff a) in H1 || apply (Hiff a) in H2; done || by left.
Qed.

Lemma bind_ext_in {A B} (f g : A → list B) (l : list A) :
  (∀ x, x ∈ l → f x = g x) → l ≫= f = l ≫= g.
Proof. intros Hfg. apply Forall_bind_ext, Forall_forall, Hfg. Qed.

Lemma filter_inbound_complete sites distances k :
  complete sites distances → k ∈ sites →
  filter (λ i, (i, k) ∈ dom distances) sites = filter (λ i, i ≠ k) sites.
Proof.
  intros Hc Hk. apply filter_iff_in.
  intros i Hi. rewrite (Hc i k). naive_solver.
Qed.

Lemma filter_outbound_complete sites distances k :
  complete sites distances → k ∈ sites →
  filter (λ i, (k, i) ∈ dom distances) sites = filter (λ i, i ≠ k) sites.
Proof.
  intros Hc Hk. apply filter_iff_in.
  intros i Hi. rewrite (Hc k i). naive_solver.
Qed.

Lemma degree_constraints_complete sites distances :
  complete sites distances →
  degree_constraints sites (dom distances)
  = k ← sites;
    [lpSum ((λ i, EVar (xvar (i, k))) <$> filter (λ i, i ≠ k) sites) ==' ENum 1;
     lpSum ((λ i, EVar (xvar (k, i))) <$> filter (λ i, i ≠ k) sites) ==' ENum 1].
Proof.
  intros Hc. unfold degree_constraints, inbound_sum, outbound_sum.
  apply bind_ext_in. intros k Hk.
  by rewrite filter_inbound_complete, filter_outbound_complete.
Qed.

Lemma mtz_constraints_complete sites distances :
  complete sites distances →
  mtz_constraints sites (dom distances)
  = let N := Z.of_nat (length sites) in
    i ← sites; j ← sites;
    if decide (i ≠ j ∧ i ≠ "org" ∧ j ≠ "org")
    then [mtz N (uvar N i) (uvar N j) (xvar (i, j))] else [].
Proof.
  intros Hc. unfold mtz_constraints. simpl.
  apply bind_ext_in. intros i Hi.
  apply bind_ext_in. intros j Hj.
  destruct (decide (i ≠ j ∧ i ≠ "org" ∧ j ≠ "org")) as [Hd|Hd].
  - rewrite decide_True; [done|]. rewrite (Hc i j). naive_solver.
  - rewrite decide_False; [done|]. naive_solver.
Qed.

(** ** The degree constraints *)

(** C7: over a complete distance dictionary, [x] holds one binary variable
    for every ordered pair of distinct sites and no other, and the degree
    loop appends, for each site [k] in turn, exactly two equalities: the
    sum of [x[i,k]] over the sites [i ≠ k] equals 1, and the sum of
    [x[k,i]] over the sites [i ≠ k] equals 1. *)
Theorem degree_cell_exact (sites : list site) (distances : gmap edge Z) (prob : LpProblem) :
  complete sites distances →
  let x := LpVariable_dicts_x distances 0 1 LpBinary in
  (∀ i j, x !! (i, j)
          = if decide (i ∈ sites ∧ j ∈ sites ∧ i ≠ j)
            then Some (mkLpVariable (X (i, j)) 0 1 LpBinary) else None)
  ∧ degree_cell sites x prob
    = Ok {| objective := objective prob;
            constraints := constraints prob ++
              (k ← sites;
               [lpSum ((λ i, EVar (xvar (i, k))) <$> filter (λ i, i ≠ k) sites) ==' ENum 1;
                lpSum ((λ i, EVar (xvar (k, i))) <$> filter (λ i, i ≠ k) sites) ==' ENum 1]) |}
  ∧ (∀ a k,
       (satisfies a (lpSum ((λ i, EVar (xvar (i, k))) <$> filter (λ i, i ≠ k) sites) ==' ENum 1)
        ↔ sum ((λ i, a (X (i, k))) <$> filter (λ i, i ≠ k) sites) = 1)
       ∧ (satisfies a (lpSum ((λ i, EVar (xvar (k, i))) <$> filter (λ i, i ≠ k) sites) ==' ENum 1)
          ↔ sum ((λ i, a (X (k, i))) <$> filter (λ i, i ≠ k) sites) = 1)).
Proof.
  intros Hc x. split; [|split].
  - intros i j. subst x. rewrite x_lookup.
    destruct (decide (i ∈ sites ∧ j ∈ sites ∧ i ≠ j)) as [Hd|Hd];
      rewrite <- (Hc i j), elem_of_dom in Hd.
    + by destruct Hd as [d ->].
    + destruct (distances !! (i, j)) eqn:E; [|done]. destruct Hd. by eexists.
  - subst x. rewrite degree_cell_Ok, add_constraints_app, x_dom.
    by rewrite degree_constraints_complete.
  - intros a k. unfold satisfies. simpl sense. cbv iota.
    unfold lhs, rhs.
    rewrite (value_lpSum_vars a (λ i, (i, k))), (value_lpSum_vars a (λ i, (k, i))).
    done.
Qed.

Lemma degree_cell_exact_witness :
  ∃ prob, degree_cell ["org"; "A"; "B"]
            (LpVariable_dicts_x (distances_cell ["org"; "A"; "B"] (λ _ _, 10)) 0 1 LpBinary)
            (mkLpProblem None []) = Ok prob
          ∧ length (constraints prob) = 6%nat.
Proof.
  destruct (degree_cell_exact ["org"; "A"; "B"]
              (distances_cell ["org"; "A"; "B"] (λ _ _, 10)) (mkLpProblem None [])
              (distances_cell_complete _ _)) as (_ & -> & _).
  eexists. split; reflexivity.
Defined.

(** ** The subtour-elimination constraints *)

(** C2: over a complete distance dictionary, the subtour loop appends,
    for the ordered pairs [(i,j)] of distinct sites other than ['org'] and
    for no other pair, exactly [u[i] - u[j] <= N*(1 - x[i,j]) - 1]; every
    [u[i]] is an integer variable with bounds [0] and [N-1]; no such
    constraint touches a variable of ['org']; with [x[i,j] = 1] it says
    [u[i] - u[j] <= -1], with [x[i,j] = 0] it says [u[i] - u[j] <= N-1],
    which the bounds of [u] already give. *)
Theorem subtour_cell_exact (sites : list site) (distances : gmap edge Z) (prob : LpProblem) :
  complete sites distances →
  let N := Z.of_nat (length sites) in
  let x := LpVariable_dicts_x distances 0 1 LpBinary in
  let u := LpVariable_dicts_u sites 0 (N - 1) LpInteger in
  let c i j :=
    ESub (EVar (uvar N i)) (EVar (uvar N j))
    <=' ESub (EMul (ENum N) (ESub (ENum 1) (EVar (xvar (i, j))))) (ENum 1) in
  let added :=
    i ← sites; j ← sites; if decide (i ≠ j ∧ i ≠ "org" ∧ j ≠ "org") then [c i j] else [] in
  subtour_cell sites x u prob
  = Ok {| objective := objective prob; constraints := constraints prob ++ added |}
  ∧ (∀ i, i ∈ sites → u !! i = Some (mkLpVariable (U i) 0 (N - 1) LpInteger))
  ∧ (∀ k, k ∈ added → ¬ touches "org" k)
  ∧ (∀ a i j, a (X (i, j)) = 1 → satisfies a (c i j) ↔ a (U i) - a (U j) ≤ -1)
  ∧ (∀ a i j, a (X (i, j)) = 0 → satisfies a (c i j) ↔ a (U i) - a (U j) ≤ N - 1)
  ∧ (∀ a i j, a (X (i, j)) = 0 → in_domain a (uvar N i) → in_domain a (uvar N j) →
              satisfies a (c i j)).
Proof.
  intros Hc N x u c added. split; [|split; [|split; [|split; [|split]]]].
  - subst x u N. rewrite subtour_cell_Ok, add_constraints_app, x_dom.
    by rewrite mtz_constraints_complete.
  - intros i Hi. subst u. rewrite u_lookup. by rewrite decide_True.
  - intros k Hk (v & Hm & Hv). subst added.
    apply list_elem_of_bind in Hk as (i & Hk & Hi).
    apply list_elem_of_bind in Hk as (j & Hk & Hj).
    case_decide as Hd; [|by apply elem_of_nil in Hk].
    apply list_elem_of_singleton in Hk as ->. simpl in Hm.
    destruct Hd as (_ & Hio & Hjo).
    destruct Hv as [->|[s [->| ->]]]; naive_solver.
  - intros a i j Hx. unfold satisfies; simpl. rewrite Hx. lia.
  - intros a i j Hx. unfold satisfies; simpl. rewrite Hx. lia.
  - intros a i j Hx. unfold satisfies, in_domain; simpl. rewrite Hx. lia.
Qed.

Lemma subtour_cell_exact_witness :
  ∃ prob, subtour_cell ["org"; "A"; "B"]
            (LpVariable_dicts_x (distances_cell ["org"; "A"; "B"] (λ _ _, 10)) 0 1 LpBinary)
            (LpVariable_dicts_u ["org"; "A"; "B"] 0 (3 - 1) LpInteger)
            (mkLpProblem None []) = Ok prob
          ∧ length (constraints prob) = 2%nat.
Proof.
  destruct (subtour_cell_exact ["org"; "A"; "B"]
              (distances_cell ["org"; "A"; "B"] (λ _ _, 10)) (mkLpProblem None [])
              (distances_cell_complete _ _)) as (Hcell & _).
  simpl in Hcell. eexists. split; [exact Hcell|reflexivity].
Defined.

(** ** The tour cell: one pass of the loop *)

Lemma list_index_split (l1 l2 : list site) k :
  k ∉ l1 → list_index (l1 ++ k :: l2) k = Ok (length l1).
Proof.
  induction l1 as [|a l1 IH]; intros Hk; simpl.
  - by rewrite decide_True.
  - apply not_elem_of_cons in Hk as [Hne Hk].
    rewrite decide_False by done. by rewrite IH.
Qed.

Lemma list_index_not_in (l : list site) k : k ∉ l → list_index l k = Raise ValueError.
Proof.
  induction l as [|a l IH]; intros Hk; simpl; [done|].
  apply not_elem_of_cons in Hk as [Hne Hk].
  rewrite decide_False by done. by rewrite IH.
Qed.

Lemma move_split st l1 k l2 :
  sites_left st = l1 ++ k :: l2 → k ∉ l1 →
  move st k = Ok {| sites_left := l1 ++ l2; org := org st; tour := tour st ++ [k] |}.
Proof.
  intros Hl Hk. unfold move. rewrite Hl, list_index_split by done. simpl.
  unfold list_pop. rewrite list_lookup_middle by done. simpl.
  by rewrite delete_middle.
Qed.

Lemma for_k_skip xv st p q : misses xv (org st) p → for_k xv st (p ++ q) = for_k xv st q.
Proof.
  induction p as [|k p IH]; intros Hp; [done|]. simpl.
  destruct (Hp k) as (v & Hv & Hne); [by left|].
  rewrite (getitem_Some _ _ _ Hv). simpl.
  destruct (Qeq_bool v 1) eqn:E; [by apply Qeq_bool_iff in E|].
  apply IH. intros k' Hk'. apply Hp. by right.
Qed.

Lemma for_k_none xv st ks : misses xv (org st) ks → for_k xv st ks = Ok st.
Proof. intros Hm. rewrite <- (app_nil_r ks). by rewrite for_k_skip. Qed.

Lemma for_k_hit xv st k q v l1 l2 :
  xv !! (org st, k) = Some v → (v == 1)%Q →
  sites_left st = l1 ++ k :: l2 → k ∉ l1 →
  for_k xv st (k :: q) = Ok (advance st k (l1 ++ l2)).
Proof.
  intros Hv Hone Hl Hk. simpl. rewrite (getitem_Some _ _ _ Hv). simpl.
  apply Qeq_bool_iff in Hone. rewrite Hone.
  by rewrite (move_split st l1 k l2).
Qed.

(** What a pass of the [for] loop can do. *)
Lemma for_k_inv xv st ks st' :
  for_k xv st ks = Ok st' → (∀ k, k ∈ ks → k ∈ sites_left st) →
  st' = st
  ∨ ∃ l1 k l2 v, sites_left st = l1 ++ k :: l2 ∧ (k ∉ l1) ∧ k ∈ ks
                ∧ xv !! (org st, k) = Some v ∧ (v == 1)%Q
                ∧ st' = advance st k (l1 ++ l2).
Proof.
  induction ks as [|k ks IH]; simpl; intros Hf Hsub.
  - left. by simplify_eq.
  - unfold getitem in Hf. destruct (xv !! (org st, k)) as [v|] eqn:Hv; [|done].
    simpl in Hf. destruct (Qeq_bool v 1) eqn:E.
    + right. apply Qeq_bool_iff in E.
      destruct (list_elem_of_split_l (sites_left st) k) as (l1 & l2 & Hl & Hk);
        [apply Hsub; by left|].
      rewrite (move_split st l1 k l2) in Hf by done. simpl in Hf.
      exists l1, k, l2, v. repeat split; try done; [by left|by simplify_eq].
    + destruct IH as [->|(l1 & k' & l2 & v' & ? & ? & ? & ? & ? & ?)]; try done.
      * intros; apply Hsub; by right.
      * by left.
      * right. exists l1, k', l2, v'. repeat split; try done. by right.
Qed.

Lemma body_inv xv st st' :
  body xv st = Ok st' →
  st' = st
  ∨ ∃ l1 k l2 v, sites_left st = l1 ++ k :: l2 ∧ (k ∉ l1)
                ∧ xv !! (org st, k) = Some v ∧ (v == 1)%Q
                ∧ st' = advance st k (l1 ++ l2).
Proof.
  intros Hb. apply for_k_inv in Hb; [|done].
  destruct Hb as [?|(l1 & k & l2 & v & ? & ? & ? & ? & ? & ?)]; [by left|].
  right. by exists l1, k, l2, v.
Qed.

(** The loop only raises [KeyError]. *)
Lemma for_k_raise xv st ks e :
  for_k xv st ks = Raise e → (∀ k, k ∈ ks → k ∈ sites_left st) → e = KeyError.
Proof.
  induction ks as [|k ks IH]; simpl; intros Hf Hsub; [done|].
  unfold getitem in Hf. destruct (xv !! (org st, k)) as [v|] eqn:Hv; [|simpl in Hf; congruence].
  simpl in Hf. destruct (Qeq_bool v 1) eqn:E.
  - destruct (list_elem_of_split_l (sites_left st) k) as (l1 & l2 & Hl & Hk);
      [apply Hsub; by left|].
    by rewrite (move_split st l1 k l2) in Hf.
  - apply IH; [done|]. intros; apply Hsub; by right.
Qed.

(** ** Invariants of the loop *)

Lemma iterate_invariant (P : decoder → Prop) xv :
  (∀ st st', P st → body xv st = Ok st' → P st') →
  ∀ n st st', P st → iterate xv n st = Ok st' → P st'.
Proof.
  intros Hstep. induction n as [|n IH]; intros st st' HP Hit; simpl in Hit.
  - by simplify_eq.
  - destruct (body xv st) as [st1|] eqn:Hb; [|done]. simpl in Hit. eauto.
Qed.

Lemma while_invariant (P : decoder → Prop) xv :
  (∀ st st', P st → body xv st = Ok st' → P st') →
  ∀ fuel st st', P st → while xv fuel st = Some (Ok st') → P st' ∧ sites_left st' = [].
Proof.
  intros Hstep. induction fuel as [|fuel IH]; intros st st' HP Hw; simpl in Hw; [done|].
  case_decide as Hlen.
  - destruct (body xv st) as [st1|] eqn:Hb; [|done]. eauto.
  - simplify_eq. split; [done|]. destruct (sites_left st'); [done|simpl in Hlen; lia].
Qed.

Lemma while_iterate xv fuel st st' :
  while xv fuel st = Some (Ok st') → ∃ n, iterate xv n st = Ok st' ∧ sites_left st' = [].
Proof.
  revert st. induction fuel as [|fuel IH]; intros st Hw; simpl in Hw; [done|].
  case_decide as Hlen.
  - destruct (body xv st) as [st1|] eqn:Hb; [|done].
    destruct (IH _ Hw) as (n & Hn & Hl). exists (S n). simpl. by rewrite Hb.
  - simplify_eq. exists 0%nat. split; [done|].
    destruct (sites_left st'); [done|simpl in Hlen; lia].
Qed.

Lemma start_Ok sites org0 st :
  start sites org0 = Ok st →
  ∃ l1 l2, sites = l1 ++ org0 :: l2 ∧ (org0 ∉ l1)
           ∧ st = {| sites_left := l1 ++ l2; org := org0; tour := [org0] |}.
Proof.
  unfold start. intros Hs.
  destruct (decide (org0 ∈ sites)) as [Hin|Hin].
  - apply list_elem_of_split_l in Hin as (l1 & l2 & -> & Hk).
    rewrite (move_split _ l1 org0 l2) in Hs by done. simplify_eq. by exists l1, l2.
  - unfold move in Hs. simpl in Hs. by rewrite list_index_not_in in Hs.
Qed.

Lemma start_partition sites org0 st : start sites org0 = Ok st → partition sites st.
Proof.
  intros (l1 & l2 & -> & _ & ->)%start_Ok. unfold partition. simpl.
  by rewrite Permutation_middle.
Qed.

Lemma body_partition sites xv st st' :
  partition sites st → body xv st = Ok st' → partition sites st'.
Proof.
  unfold partition. intros Hp Hb.
  apply body_inv in Hb as [->|(l1 & k & l2 & v & Hl & _ & _ & _ & ->)]; [done|].
  simpl. rewrite <- Hp, Hl, <- app_assoc. apply Permutation_app_head.
  simpl. by rewrite Permutation_middle.
Qed.

(** C9: after any number of passes through the loop body, the tour built
    so far followed by [sites_left] is a rearrangement of [sites], so the
    two lengths add up to [N]; when the site labels are distinct the tour
    has no repeated site and shares none with [sites_left]; a pass that
    appends a site removes that same site from [sites_left]; and the state
    in which the [while] loop ends is the state after some number of
    passes. *)
Theorem tour_partition (sites : list site) (org0 : site) (xv : gmap edge Q)
    (n : nat) (st0 st : decoder) :
  start sites org0 = Ok st0 → iterate xv n st0 = Ok st →
  tour st ++ sites_left st ≡ₚ sites
  ∧ (length (tour st) + length (sites_left st) = length sites)%nat
  ∧ (NoDup sites → NoDup (tour st) ∧ NoDup (sites_left st)
                   ∧ ∀ s, s ∈ tour st → s ∉ sites_left st)
  ∧ (∀ st', body xv st = Ok st' →
       st' = st
       ∨ ∃ k, tour st' = tour st ++ [k] ∧ sites_left st ≡ₚ k :: sites_left st'
              ∧ (k ∈ sites_left st) ∧ (NoDup sites → k ∉ sites_left st'))
  ∧ (∀ fuel st', while xv fuel st0 = Some (Ok st') →
       ∃ m, iterate xv m st0 = Ok st' ∧ sites_left st' = []).
Proof.
  intros Hs Hit.
  assert (partition sites st) as Hp.
  { eapply (iterate_invariant (partition sites)); [|by eapply start_partition|done].
    intros; by eapply body_partition. }
  unfold partition in Hp. split; [done|]. split; [|split; [|split]];
    [| | |intros fuel st'; apply while_iterate].
  - by rewrite <- Hp, length_app.
  - intros Hnd. rewrite <- Hp in Hnd. apply NoDup_app in Hnd. naive_solver.
  - intros st' Hb.
    apply body_inv in Hb as [->|(l1 & k & l2 & v & Hl & _ & _ & _ & ->)]; [by left|].
    right. exists k. simpl. rewrite Hl. split; [done|]. split; [|split].
    + by rewrite Permutation_middle.
    + apply elem_of_app. right. by left.
    + intros Hnd. rewrite <- Hp, Hl in Hnd.
      apply NoDup_app in Hnd as (_ & _ & Hnd).
      rewrite <- Permutation_middle in Hnd. by apply NoDup_cons in Hnd as [? _].
Qed.

Lemma tour_partition_witness :
  ["org"; "A"] ++ ["B"] ≡ₚ abc_sites.
Proof.
  exact (proj1 (tour_partition abc_sites "org" abc_tour_values 1
                  {| sites_left := ["A"; "B"]; org := "org"; tour := ["org"] |}
                  {| sites_left := ["B"]; org := "A"; tour := ["org"; "A"] |}
                  eq_refl eq_refl)).
Defined.

(** ** How the next site is chosen *)

Lemma body_first_hit xv st l1 k l2 v :
  sites_left st = l1 ++ k :: l2 → misses xv (org st) l1 →
  xv !! (org st, k) = Some v → (v == 1)%Q →
  body xv st = Ok (advance st k (l1 ++ l2)).
Proof.
  intros Hl Hm Hv Hone. unfold body. rewrite Hl, for_k_skip by done.
  apply (for_k_hit xv st k l2 v l1 l2); try done.
  intros Hin. destruct (Hm k Hin) as (v' & Hv' & Hne). by simplify_eq.
Qed.

Lemma body_pass xv st l1 k l2 v :
  sites_left st = l1 ++ k :: l2 → misses xv (org st) l1 →
  xv !! (org st, k) = Some v → ¬ (v == 1)%Q →
  body xv st = for_k xv st l2.
Proof.
  intros Hl Hm Hv Hne. unfold body.
  rewrite Hl, (for_k_skip xv st l1) by done.
  apply (for_k_skip xv st [k] l2).
  intros k' ->%list_elem_of_singleton. by exists v.
Qed.

Lemma while_stuck xv st :
  sites_left st ≠ [] → body xv st = Ok st → ∀ fuel, while xv fuel st = None.
Proof.
  intros Hne Hb. induction fuel as [|fuel IH]; simpl; [done|].
  rewrite decide_True, Hb; [done|]. destruct (sites_left st); [done|simpl; lia].
Qed.

Lemma while_raise xv fuel :
  ∀ st e, while xv fuel st = Some (Raise e) → e = KeyError.
Proof.
  induction fuel as [|fuel IH]; intros st e Hw; simpl in Hw; [done|].
  case_decide; [|done].
  destruct (body xv st) as [st1|e1] eqn:Hb; [by eapply IH|].
  simplify_eq. by eapply for_k_raise.
Qed.

(** C3, as the code has it: the next site is chosen by exact equality of
    the edge value with 1.  A pass of the loop body either changes nothing
    or moves a site whose edge value equals 1; a site whose edge value is
    not equal to 1, however close, is passed over; and the first site of
    [sites_left] whose edge value equals 1 is the one moved. *)
Theorem next_site_by_equality (xv : gmap edge Q) (st : decoder) :
  (∀ st', body xv st = Ok st' →
     st' = st
     ∨ ∃ l1 k l2 v, sites_left st = l1 ++ k :: l2 ∧ (k ∉ l1)
                   ∧ xv !! (org st, k) = Some v ∧ (v == 1)%Q
                   ∧ st' = advance st k (l1 ++ l2))
  ∧ (∀ l1 k l2 v, sites_left st = l1 ++ k :: l2 → misses xv (org st) l1 →
       xv !! (org st, k) = Some v → ¬ (v == 1)%Q →
       body xv st = for_k xv st l2)
  ∧ (misses xv (org st) (sites_left st) → body xv st = Ok st)
  ∧ (∀ l1 k l2 v, sites_left st = l1 ++ k :: l2 → misses xv (org st) l1 →
       xv !! (org st, k) = Some v → (v == 1)%Q →
       body xv st = Ok (advance st k (l1 ++ l2))).
Proof.
  split; [|split; [|split]].
  - apply body_inv.
  - apply body_pass.
  - apply for_k_none.
  - apply body_first_hit.
Qed.

Lemma next_site_by_equality_witness : body abc_near_values abc_start = Ok abc_start.
Proof.
  apply (proj1 (proj2 (proj2 (next_site_by_equality abc_near_values abc_start)))).
  intros k Hk. cbn in Hk.
  apply elem_of_cons in Hk as [->|Hk]; [|apply list_elem_of_singleton in Hk as ->].
  - exists near_one. split; [reflexivity|]. unfold Qeq, near_one; simpl. lia.
  - exists 0%Q. split; [reflexivity|]. unfold Qeq; simpl. lia.
Defined.

(** The claim's tolerance fails: the only outbound edge of ['org'] that is
    near 1 has a value within [1e-6] of 1, yet the loop body leaves the
    state as it was and the cell never returns. *)
Lemma tolerance_counterexample :
  abc_near_values !! ("org", "A") = Some near_one
  ∧ (1 - near_one <= 1 # 1000000)%Q ∧ (near_one - 1 <= 1 # 1000000)%Q
  ∧ abc_near_values !! ("org", "B") = Some 0%Q
  ∧ start abc_sites "org" = Ok abc_start
  ∧ body abc_near_values abc_start = Ok abc_start
  ∧ ∀ fuel, decode abc_sites abc_near_values abc_distances fuel = None.
Proof.
  assert (body abc_near_values abc_start = Ok abc_start) as Hb by reflexivity.
  repeat split; try reflexivity; try (unfold Qle, near_one; simpl; lia).
  intros fuel. unfold decode, decode_from.
  change (start abc_sites "org") with (Ok abc_start). cbv iota beta.
  by rewrite (while_stuck abc_near_values abc_start).
Qed.

(** ** What the loop does when the edges out of a site are not exactly one *)

(** C4, as the code has it: the cell has no decode error.  When several
    sites of [sites_left] have edge value 1 the first of them is taken,
    whatever the values of the later ones; the only exception the loop can
    raise is [KeyError]; and the loop returns no partial tour: when it
    returns, the tour holds every site. *)
Theorem loop_without_decode_error (xv : gmap edge Q) (st : decoder) :
  (∀ l1 k l2 v, sites_left st = l1 ++ k :: l2 → misses xv (org st) l1 →
     xv !! (org st, k) = Some v → (v == 1)%Q →
     body xv st = Ok (advance st k (l1 ++ l2)))
  ∧ (∀ fuel e, while xv fuel st = Some (Raise e) → e = KeyError)
  ∧ (∀ sites fuel st', partition sites st → while xv fuel st = Some (Ok st') →
       sites_left st' = [] ∧ tour st' ≡ₚ sites).
Proof.
  split; [|split].
  - apply body_first_hit.
  - intros fuel e. apply while_raise.
  - intros sites fuel st' Hp Hw.
    apply (while_invariant (partition sites) xv) in Hw as [Hp' Hnil];
      [|intros; by eapply body_partition|done].
    split; [done|]. unfold partition in Hp'. by rewrite Hnil, app_nil_r in Hp'.
Qed.

Lemma loop_without_decode_error_witness :
  body abc_ones abc_start = Ok (advance abc_start "A" ["B"]).
Proof.
  apply (proj1 (loop_without_decode_error abc_ones abc_start) [] "A" ["B"] 1%Q).
  - reflexivity.
  - intros k Hk. by apply elem_of_nil in Hk.
  - reflexivity.
  - reflexivity.
Defined.

(** Two edges out of ['org'] have value 1 and the cell returns a tour;
    none has and the cell never returns: no error either way. *)
Lemma decode_error_counterexample :
  (abc_ones !! ("org", "A") = Some 1%Q ∧ abc_ones !! ("org", "B") = Some 1%Q
   ∧ decode abc_sites abc_ones abc_distances 3
     = Some (Ok (["org"; "A"; "B"; "org"], 30)))
  ∧ (abc_zeros !! ("org", "A") = Some 0%Q ∧ abc_zeros !! ("org", "B") = Some 0%Q
     ∧ ∀ fuel, decode abc_sites abc_zeros abc_distances fuel = None).
Proof.
  split; [repeat split; reflexivity|]. split; [reflexivity|]. split; [reflexivity|].
  intros fuel. unfold decode, decode_from.
  change (start abc_sites "org") with (Ok abc_start). cbv iota beta.
  by rewrite (while_stuck abc_zeros abc_start).
Qed.

(** ** The closing label *)

Lemma body_head xv st st' o :
  head (tour st) = Some o → body xv st = Ok st' → head (tour st') = Some o.
Proof.
  intros Hh Hb.
  apply body_inv in Hb as [->|(l1 & k & l2 & v & _ & _ & _ & _ & ->)]; [done|].
  simpl. destruct (tour st); by simplify_eq.
Qed.

Lemma decode_from_Ok org0 sites xv distances fuel t cost :
  decode_from org0 sites xv distances fuel = Some (Ok (t, cost)) →
  ∃ st0 st legs, start sites org0 = Ok st0 ∧ while xv fuel st0 = Some (Ok st)
                 ∧ t = tour st ++ ["org"]
                 ∧ tour_legs distances t = Ok legs ∧ cost = sum legs.
Proof.
  unfold decode_from. intros Hd.
  destruct (start sites org0) as [st0|] eqn:Hs; [|by simplify_eq].
  destruct (while xv fuel st0) as [[st|]|] eqn:Hw; [|by simplify_eq|done].
  destruct (tour_legs distances (tour st ++ ["org"])) as [legs|] eqn:Hl;
    simpl in Hd; [|by simplify_eq].
  simplify_eq. by exists st0, st, legs.
Qed.

(** C10: whatever site the cell starts from, the sequence it returns
    begins with that site and ends with the literal label ['org']; so the
    first and last elements agree exactly when the starting label is
    ['org']. *)
Theorem closing_label_is_literal (org0 : site) (sites : list site) (xv : gmap edge Q)
    (distances : gmap edge Z) (fuel : nat) (t : list site) (cost : Z) :
  decode_from org0 sites xv distances fuel = Some (Ok (t, cost)) →
  last t = Some "org" ∧ head t = Some org0 ∧ (head t = last t ↔ org0 = "org").
Proof.
  intros (st0 & st & legs & Hs & Hw & -> & _ & _)%decode_from_Ok.
  assert (head (tour st) = Some org0) as Hh.
  { apply (while_invariant (λ st, head (tour st) = Some org0) xv) in Hw as [? _];
      [done|intros; by eapply body_head|].
    by apply start_Ok in Hs as (l1 & l2 & _ & _ & ->). }
  assert (head (tour st ++ ["org"]) = Some org0) as Hh'.
  { destruct (tour st); by simplify_eq. }
  rewrite last_snoc, Hh'. split; [done|]. split; [done|].
  split; intros; by simplify_eq.
Qed.

Lemma closing_label_is_literal_witness :
  decode_from "A" abc_sites start_at_A_values abc_distances 3
  = Some (Ok (["A"; "org"; "B"; "org"], 30))
  ∧ last ["A"; "org"; "B"; "org"] = Some "org"
  ∧ head ["A"; "org"; "B"; "org"] = Some "A".
Proof.
  split; [reflexivity|].
  pose proof (closing_label_is_literal "A" abc_sites start_at_A_values abc_distances 3
                ["A"; "org"; "B"; "org"] 30 eq_refl) as (Hl & Hh & _).
  by split.
Defined.

(** ** Model construction never fails *)

Lemma mentions_lpSum v es : mentions v (lpSum es) ↔ ∃ e, e ∈ es ∧ mentions v e.
Proof.
  simpl. induction es as [|e es IH]; simpl.
  - split; [done|]. intros (e & He & _). by apply elem_of_nil in He.
  - rewrite IH. split.
    + intros [He|(e' & He' & Hm)]; [exists e; split; [by left|done]|].
      exists e'. split; [by right|done].
    + intros (e' & [->|He']%elem_of_cons & Hm); [by left|]. right. by exists e'.
Qed.

Lemma mentions_x_sum e (f : site → edge) (l : list site) :
  mentions (X e) (lpSum ((λ i, EVar (xvar (f i))) <$> l)) → ∃ i, i ∈ l ∧ f i = e.
Proof.
  intros (t & Ht & Hm)%mentions_lpSum.
  apply list_elem_of_fmap in Ht as (i & -> & Hi). simpl in Hm.
  exists i. split; [done|]. by simplify_eq.
Qed.

Lemma elem_of_degree_constraints (sites : list site) (keys : gset edge) (c : LpConstraint) :
  c ∈ degree_constraints sites keys →
  ∃ k, k ∈ sites ∧ (c = (inbound_sum sites keys k ==' ENum 1)
                    ∨ c = (outbound_sum sites keys k ==' ENum 1)).
Proof.
  intros (k & Hc & Hk)%list_elem_of_bind. exists k. split; [done|].
  apply elem_of_cons in Hc as [->|Hc]; [by left|].
  apply list_elem_of_singleton in Hc as ->. by right.
Qed.

Lemma elem_of_mtz_constraints (sites : list site) (keys : gset edge) (c : LpConstraint) :
  c ∈ mtz_constraints sites keys ↔
  ∃ i j, i ∈ sites ∧ j ∈ sites ∧ i ≠ j ∧ i ≠ "org" ∧ j ≠ "org" ∧ (i, j) ∈ keys
         ∧ c = mtz (Z.of_nat (length sites)) (uvar (Z.of_nat (length sites)) i)
                   (uvar (Z.of_nat (length sites)) j) (xvar (i, j)).
Proof.
  unfold mtz_constraints. simpl. rewrite list_elem_of_bind. split.
  - intros (i & Hc & Hi). apply list_elem_of_bind in Hc as (j & Hc & Hj).
    case_decide as Hd; [|by apply elem_of_nil in Hc].
    apply list_elem_of_singleton in Hc as ->. exists i, j. naive_solver.
  - intros (i & j & Hi & Hj & ? & ? & ? & ? & ->). exists i. split; [|done].
    apply list_elem_of_bind. exists j. split; [|done].
    rewrite decide_True by done. by left.
Qed.

Lemma constraints_skip_missing_key (sites : list site) (keys : gset edge)
    (e : edge) (c : LpConstraint) :
  e ∉ keys → c ∈ degree_constraints sites keys ++ mtz_constraints sites keys →
  ¬ mentions (X e) (lhs c) ∧ ¬ mentions (X e) (rhs c).
Proof.
  intros He [Hc|Hc]%elem_of_app.
  - apply elem_of_degree_constraints in Hc as (k & _ & [-> | ->]);
      unfold inbound_sum, outbound_sum; simpl lhs; simpl rhs;
      (split; [|simpl; tauto]); intros (i & Hi & <-)%mentions_x_sum;
      by apply list_elem_of_filter in Hi as [? _].
  - apply elem_of_mtz_constraints in Hc as (i & j & _ & _ & _ & _ & _ & Hk & ->).
    simpl. split; [naive_solver|]. intros [[[]|[[]|?]]|[]]. by simplify_eq.
Qed.

(** C5, as the code has it: a distance dictionary that lacks an ordered
    pair raises nothing.  The model is built; [x] has no variable for the
    pair, and no constraint of the model mentions such a variable: the
    degree sums leave the term out and the subtour loop skips the pair. *)
Theorem missing_pair_is_left_out (sites : list site) (distances : gmap edge Z) (i j : site) :
  distances !! (i, j) = None →
  ∃ nb, build_model sites distances = Ok nb
        ∧ nb_x nb !! (i, j) = None
        ∧ constraints (nb_prob nb)
          = degree_constraints sites (dom distances) ++ mtz_constraints sites (dom distances)
        ∧ ∀ c, c ∈ constraints (nb_prob nb) →
               ¬ mentions (X (i, j)) (lhs c) ∧ ¬ mentions (X (i, j)) (rhs c).
Proof.
  intros Hd. rewrite build_model_Ok. eexists. split; [done|]. simpl.
  split; [by rewrite x_lookup, Hd|]. split; [done|].
  intros c Hc. eapply constraints_skip_missing_key; [|done].
  by apply not_elem_of_dom.
Qed.

Lemma missing_pair_is_left_out_witness :
  ∃ nb, build_model abc_sites abc_without_AB = Ok nb ∧ nb_x nb !! ("A", "B") = None.
Proof.
  destruct (missing_pair_is_left_out abc_sites abc_without_AB "A" "B" eq_refl)
    as (nb & Hb & Hx & _).
  exists nb. split; assumption.
Defined.

(** A required pair is absent and the model is built all the same, with
    the six degree constraints and the one subtour constraint left. *)
Lemma missing_distance_counterexample :
  abc_without_AB !! ("A", "B") = None
  ∧ ∃ nb, build_model abc_sites abc_without_AB = Ok nb
          ∧ length (constraints (nb_prob nb)) = 7%nat.
Proof.
  split; [reflexivity|]. rewrite build_model_Ok. eexists. split; [reflexivity|].
  simpl constraints. vm_compute. reflexivity.
Qed.

(** ** Feasibility, spelled out *)

Section Feasible.
Context (sites : list site) (distances : gmap edge Z).
Context (Hcomplete : complete sites distances).
Context (xa : edge → Z) (ua : site → Z).

Lemma x_domain_iff :
  (∀ e v, LpVariable_dicts_x distances 0 1 LpBinary !! e = Some v
          → in_domain (assign xa ua) v)
  ↔ ∀ i j, i ∈ sites → j ∈ sites → i ≠ j → 0 ≤ xa (i, j) ≤ 1.
Proof.
  split.
  - intros Hx i j Hi Hj Hne.
    assert ((i, j) ∈ dom distances) as [d Hd]%elem_of_dom by by apply Hcomplete.
    apply (Hx (i, j) (xvar (i, j))). by rewrite x_lookup, Hd.
  - intros Hb [i j] v Hv. rewrite x_lookup in Hv.
    destruct (distances !! (i, j)) as [d|] eqn:Hd; [|done].
    simpl in Hv. injection Hv as <-.
    assert ((i, j) ∈ dom distances) as (? & ? & ?)%Hcomplete
      by (apply elem_of_dom; by eexists).
    unfold in_domain. simpl. by apply Hb.
Qed.

Lemma u_domain_iff :
  (∀ i v, LpVariable_dicts_u sites 0 (Z.of_nat (length sites) - 1) LpInteger !! i = Some v
          → in_domain (assign xa ua) v)
  ↔ ∀ i, i ∈ sites → 0 ≤ ua i ≤ Z.of_nat (length sites) - 1.
Proof.
  split.
  - intros Hu i Hi. apply (Hu i (uvar (Z.of_nat (length sites)) i)).
    rewrite u_lookup. by rewrite decide_True.
  - intros Hb i v Hv. rewrite u_lookup in Hv. case_decide; [|done].
    simplify_eq. unfold in_domain. simpl. by apply Hb.
Qed.

Lemma degree_constraints_iff :
  Forall (satisfies (assign xa ua)) (degree_constraints sites (dom distances))
  ↔ ∀ k, k ∈ sites →
      sum ((λ i, xa (i, k)) <$> filter (λ i, i ≠ k) sites) = 1
      ∧ sum ((λ i, xa (k, i)) <$> filter (λ i, i ≠ k) sites) = 1.
Proof.
  rewrite degree_constraints_complete by done.
  rewrite Forall_bind, Forall_forall. apply forall_proper. intros k.
  apply forall_proper. intros Hk. simpl.
  rewrite Forall_cons, Forall_singleton. unfold satisfies. simpl sense. cbv iota.
  unfold lhs, rhs.
  rewrite (value_lpSum_vars _ (λ i, (i, k))), (value_lpSum_vars _ (λ i, (k, i))).
  done.
Qed.

Lemma mtz_constraints_iff :
  Forall (satisfies (assign xa ua)) (mtz_constraints sites (dom distances))
  ↔ ∀ i j, i ∈ sites → j ∈ sites → i ≠ j → i ≠ "org" → j ≠ "org" →
      ua i - ua j ≤ Z.of_nat (length sites) * (1 - xa (i, j)) - 1.
Proof.
  rewrite Forall_forall. split.
  - intros Hall i j Hi Hj Hne Hio Hjo.
    set (N := Z.of_nat (length sites)).
    apply (Hall (mtz N (uvar N i) (uvar N j) (xvar (i, j)))).
    apply elem_of_mtz_constraints. exists i, j. repeat split; try done.
    by apply Hcomplete.
  - intros Hm c (i & j & Hi & Hj & Hne & Hio & Hjo & _ & ->)%elem_of_mtz_constraints.
    unfold satisfies. simpl. by apply Hm.
Qed.

Lemma degree_feasible_iff nb :
  degree_model sites distances = Ok nb →
  feasible nb (assign xa ua) ↔ degree_facts sites xa.
Proof.
  rewrite degree_model_Ok. intros [= <-]. unfold feasible. simpl.
  rewrite x_domain_iff, degree_constraints_iff. split.
  - intros (Hb & _ & Hd). split; [done|apply Hd|apply Hd].
  - intros [Hb Hi Ho]. split; [done|]. split; [by intros ???|]. naive_solver.
Qed.

Lemma feasible_iff nb :
  build_model sites distances = Ok nb →
  feasible nb (assign xa ua) ↔ degree_facts sites xa ∧ order_facts sites xa ua.
Proof.
  rewrite build_model_Ok. intros [= <-]. unfold feasible. simpl.
  rewrite x_domain_iff, u_domain_iff, Forall_app, degree_constraints_iff,
    mtz_constraints_iff. split.
  - intros (Hb & Hu & Hd & Hm). split; split; try done; apply Hd.
  - intros [[Hb Hi Ho] [Hu Hm]]. naive_solver.
Qed.
End Feasible.

(** ** Sums of zeros and ones *)

Section Sums.
Context {A : Type} (f : A → Z).

Lemma sum_cons_fmap a l : sum (f <$> a :: l) = f a + sum (f <$> l).
Proof. done. Qed.

Lemma sum_nonneg l : (∀ i, i ∈ l → 0 ≤ f i) → 0 ≤ sum (f <$> l).
Proof.
  induction l as [|a l IH]; intros Hf; [done|]. rewrite sum_cons_fmap.
  assert (0 ≤ f a) by (apply Hf; by left).
  assert (0 ≤ sum (f <$> l)) by (apply IH; intros; apply Hf; by right). lia.
Qed.

Lemma sum_zero l : (∀ i, i ∈ l → 0 ≤ f i) → sum (f <$> l) = 0 → ∀ i, i ∈ l → f i = 0.
Proof.
  induction l as [|a l IH]; intros Hf Hs i Hi; [by apply elem_of_nil in Hi|].
  rewrite sum_cons_fmap in Hs.
  assert (0 ≤ f a) by (apply Hf; by left).
  assert (0 ≤ sum (f <$> l)) by (apply sum_nonneg; intros; apply Hf; by right).
  apply elem_of_cons in Hi as [->|Hi]; [lia|].
  apply IH; [intros; apply Hf; by right|lia|done].
Qed.

Lemma sum_all_zero l : (∀ i, i ∈ l → f i = 0) → sum (f <$> l) = 0.
Proof.
  induction l as [|a l IH]; intros Hf; [done|]. rewrite sum_cons_fmap.
  rewrite (Hf a) by left. rewrite IH; [done|]. intros; apply Hf; by right.
Qed.

Lemma sum_one_unique l :
  (∀ i, i ∈ l → 0 ≤ f i ≤ 1) → sum (f <$> l) = 1 →
  ∃ j, j ∈ l ∧ f j = 1 ∧ ∀ i, i ∈ l → f i = 1 → i = j.
Proof.
  induction l as [|a l IH]; intros Hf Hs; [done|]. rewrite sum_cons_fmap in Hs.
  assert (0 ≤ f a ≤ 1) as Ha by (apply Hf; by left).
  assert (∀ i, i ∈ l → 0 ≤ f i ≤ 1) as Hl by (intros; apply Hf; by right).
  destruct (decide (f a = 1)) as [Hone|Hone].
  - exists a. split; [by left|]. split; [done|].
    intros i [->|Hi]%elem_of_cons Hfi; [done|].
    rewrite (sum_zero l) in Hfi; [done| |lia|done]. intros; by apply Hl.
  - destruct IH as (j & Hj & Hfj & Huniq); [done|lia|].
    exists j. split; [by right|]. split; [done|].
    intros i [->|Hi]%elem_of_cons Hfi; [done|by apply Huniq].
Qed.

Lemma sum_indicator l j :
  NoDup l → j ∈ l → f j = 1 → (∀ i, i ∈ l → i ≠ j → f i = 0) → sum (f <$> l) = 1.
Proof.
  induction l as [|a l IH]; intros Hnd Hj Hfj Hz; [by apply elem_of_nil in Hj|].
  apply NoDup_cons in Hnd as [Ha Hnd]. rewrite sum_cons_fmap.
  apply elem_of_cons in Hj as [->|Hj].
  - rewrite Hfj, sum_all_zero; [done|].
    intros i Hi. apply Hz; [by right|]. by intros ->.
  - rewrite (Hz a), IH; try done.
    + intros i Hi. apply Hz. by right.
    + by left.
    + by intros ->.
Qed.
End Sums.

(** ** Consecutive pairs of a sequence of sites *)

Lemma legs_of_cons2 a b t : legs_of (a :: b :: t) = (a, b) :: legs_of (b :: t).
Proof. done. Qed.

Lemma elem_of_legs_of t a b :
  (a, b) ∈ legs_of t ↔ ∃ i, t !! i = Some a ∧ t !! S i = Some b.
Proof.
  unfold legs_of. rewrite list_elem_of_lookup. split.
  - intros (i & Hi). exists i.
    apply lookup_zip_with_Some in Hi as (a' & b' & ? & Ha & Hb). simplify_eq.
    by rewrite lookup_tail in Hb.
  - intros (i & Ha & Hb). exists i.
    apply lookup_zip_with_Some. exists a, b. by rewrite lookup_tail.
Qed.

Lemma legs_of_fst_snoc t o : (legs_of (t ++ [o])).*1 = t.
Proof.
  induction t as [|a t IH]; [done|].
  destruct t as [|b t]; [done|].
  change ((a :: b :: t) ++ [o]) with (a :: b :: (t ++ [o])).
  rewrite legs_of_cons2, fmap_cons. simpl. f_equal. apply IH.
Qed.

Lemma length_legs_of t : length (legs_of t) = (length t - 1)%nat.
Proof.
  induction t as [|a t IH]; [done|]. destruct t as [|b t]; [done|].
  rewrite legs_of_cons2. simpl length in *. lia.
Qed.

Lemma legs_of_snd t : (legs_of t).*2 = tail t.
Proof. unfold legs_of. apply snd_zip. destruct t; simpl; lia. Qed.

Lemma NoDup_fst_functional {A B} (l : list (A * B)) a b b' :
  NoDup l.*1 → (a, b) ∈ l → (a, b') ∈ l → b = b'.
Proof.
  induction l as [|[a0 b0] l IH]; intros Hnd Hb Hb'; [by apply elem_of_nil in Hb|].
  rewrite fmap_cons in Hnd. apply NoDup_cons in Hnd as [Ha Hnd]. simpl in Ha.
  assert (∀ b1, (a0, b1) ∈ l → False) as Habs.
  { intros b1 H1. apply Ha. apply list_elem_of_fmap. by exists (a0, b1). }
  apply elem_of_cons in Hb as [Hb|Hb]; apply elem_of_cons in Hb' as [Hb'|Hb'];
    simplify_eq; try done; try (by exfalso; eapply Habs); by apply IH.
Qed.

Lemma NoDup_snd_functional {A B} (l : list (A * B)) a a' b :
  NoDup l.*2 → (a, b) ∈ l → (a', b) ∈ l → a = a'.
Proof.
  induction l as [|[a0 b0] l IH]; intros Hnd Ha Ha'; [by apply elem_of_nil in Ha|].
  rewrite fmap_cons in Hnd. apply NoDup_cons in Hnd as [Hb Hnd]. simpl in Hb.
  assert (∀ a1, (a1, b0) ∈ l → False) as Habs.
  { intros a1 H1. apply Hb. apply list_elem_of_fmap. by exists (a1, b0). }
  apply elem_of_cons in Ha as [Ha|Ha]; apply elem_of_cons in Ha' as [Ha'|Ha'];
    simplify_eq; try done; try (by exfalso; eapply Habs); by apply IH.
Qed.

(** ** Edge sets that give every site one way in and one way out *)

Lemma cover_app s1 s2 L1 L2 : cover s1 L1 → cover s2 L2 → cover (s1 ++ s2) (L1 ++ L2).
Proof.
  intros [F1 S1 I1] [F2 S2 I2]. split.
  - by rewrite fmap_app, F1, F2.
  - by rewrite fmap_app, S1, S2.
  - intros a b [?|?]%elem_of_app; eauto.
Qed.

Lemma degree_facts_ext sites xa xa' :
  (∀ i j, i ∈ sites → j ∈ sites → i ≠ j → xa (i, j) = xa' (i, j)) →
  degree_facts sites xa → degree_facts sites xa'.
Proof.
  intros Heq [Hb Hi Ho]. split.
  - intros i j ???. rewrite <- Heq by done. by apply Hb.
  - intros k Hk. rewrite <- (Hi k Hk). f_equal. apply list_fmap_ext.
    intros n i [Hne Hin]%list_elem_of_lookup_2%list_elem_of_filter.
    symmetry. by apply Heq.
  - intros k Hk. rewrite <- (Ho k Hk). f_equal. apply list_fmap_ext.
    intros n i [Hne Hin]%list_elem_of_lookup_2%list_elem_of_filter.
    symmetry. by apply Heq.
Qed.

Lemma cover_degree sites L : NoDup sites → cover sites L → degree_facts sites (indicator L).
Proof.
  intros Hnd [HF HS HI].
  assert (NoDup L.*1) as Hnd1 by by rewrite HF.
  assert (NoDup L.*2) as Hnd2 by by rewrite HS.
  split.
  - intros i j _ _ _. unfold indicator. case_decide; lia.
  - intros k Hk.
    assert (k ∈ L.*2) as ([a k'] & Hk' & Ha)%list_elem_of_fmap by by rewrite HS.
    simpl in Hk'. subst k'.
    apply (sum_indicator _ _ a).
    + by apply NoDup_filter.
    + apply list_elem_of_filter. split; [by eapply HI|].
      rewrite <- HF. apply list_elem_of_fmap. by exists (a, k).
    + unfold indicator. by rewrite decide_True.
    + intros i _ Hne. unfold indicator. rewrite decide_False; [done|].
      intros Hi. apply Hne. by eapply NoDup_snd_functional.
  - intros k Hk.
    assert (k ∈ L.*1) as ([k' b] & Hk' & Hb)%list_elem_of_fmap by by rewrite HF.
    simpl in Hk'. subst k'.
    apply (sum_indicator _ _ b).
    + by apply NoDup_filter.
    + apply list_elem_of_filter. split; [apply not_eq_sym; by eapply HI|].
      rewrite <- HS. apply list_elem_of_fmap. by exists (k, b).
    + unfold indicator. by rewrite decide_True.
    + intros i _ Hne. unfold indicator. rewrite decide_False; [done|].
      intros Hi. apply Hne. by eapply NoDup_fst_functional.
Qed.

Lemma closed_cons a c : closed (a :: c) = a :: c ++ [a].
Proof. done. Qed.

Lemma closed_lookup_lt (c : list site) i : (i < length c)%nat → closed c !! i = c !! i.
Proof. intros. unfold closed. by rewrite lookup_app_l. Qed.

Lemma closed_lookup_last (c : list site) : closed c !! length c = c !! 0%nat.
Proof.
  unfold closed. rewrite lookup_app_r by lia. rewrite Nat.sub_diag.
  by destruct c.
Qed.

Lemma closed_lookup_Some (c : list site) i s :
  closed c !! i = Some s → (i ≤ length c)%nat.
Proof.
  intros Hi%lookup_lt_Some. unfold closed in Hi. rewrite length_app in Hi.
  assert (length (take 1 c) ≤ 1)%nat by (rewrite length_take; lia). lia.
Qed.

(** A leg of a closed cycle joins the sites at positions [i] and [i+1]
    of the cycle, the last position being followed by the first. *)
Lemma elem_of_legs_closed (c : list site) a b :
  (a, b) ∈ legs_of (closed c) ↔
  ∃ i, c !! i = Some a
       ∧ ((S i < length c)%nat ∧ c !! S i = Some b ∨ S i = length c ∧ c !! 0%nat = Some b).
Proof.
  rewrite elem_of_legs_of. split.
  - intros (i & Ha & Hb). exists i.
    pose proof (closed_lookup_Some _ _ _ Hb) as Hle.
    rewrite closed_lookup_lt in Ha by lia. split; [done|].
    destruct (decide (S i = length c)) as [Heq|Hne].
    + right. by rewrite Heq, closed_lookup_last in Hb.
    + left. rewrite closed_lookup_lt in Hb by lia. split; [lia|done].
  - intros (i & Ha & Hb). exists i.
    pose proof (lookup_lt_Some _ _ _ Ha).
    rewrite closed_lookup_lt by done. split; [done|].
    destruct Hb as [[Hlt Hb]|[Heq Hb]].
    + by rewrite closed_lookup_lt.
    + by rewrite Heq, closed_lookup_last.
Qed.

Lemma cycle_cover (c : list site) : NoDup c → (2 ≤ length c)%nat → cover c (legs_of (closed c)).
Proof.
  intros Hnd Hlen. destruct c as [|h c]; [simpl in Hlen; lia|]. split.
  - change (closed (h :: c)) with ((h :: c) ++ [h]). by rewrite legs_of_fst_snoc.
  - rewrite legs_of_snd, closed_cons. simpl. by rewrite <- Permutation_cons_append.
  - intros a b (i & Ha & Hb)%elem_of_legs_closed ->.
    destruct Hb as [[Hlt Hb]|[Heq Hb]].
    + pose proof (NoDup_lookup _ _ _ _ Hnd Ha Hb). lia.
    + pose proof (NoDup_lookup _ _ _ _ Hnd Ha Hb). lia.
Qed.

(** ** Tours and subtours as assignments *)

Lemma list_index_lookup (c : list site) p i :
  NoDup c → c !! p = Some i → list_index c i = Ok p.
Proof.
  intros Hnd Hp. pose proof (lookup_lt_Some _ _ _ Hp) as Hlt.
  rewrite <- (take_drop_middle c p i Hp) in Hnd |- *.
  apply NoDup_app in Hnd as (_ & Hdis & _).
  rewrite list_index_split.
  - f_equal. rewrite length_take. lia.
  - intros Hin. apply (Hdis i Hin). by left.
Qed.

Lemma rank_lookup (c : list site) p i :
  NoDup c → c !! p = Some i → rank c i = Z.of_nat p.
Proof. intros Hnd Hp. unfold rank. by rewrite (list_index_lookup c p i). Qed.

Section TourIsFeasible.
Context (sites rest : list site) (xa : edge → Z).
Context (Hnd : NoDup sites) (Hlen : (2 ≤ length sites)%nat).
Context (Hperm : "org" :: rest ≡ₚ sites).
Context (Henc : encodes sites ("org" :: rest) xa).

Let c := "org" :: rest.

Lemma tour_NoDup : NoDup c.
Proof. subst c. by rewrite Hperm. Qed.

Lemma tour_length : length c = length sites.
Proof. subst c. by rewrite Hperm. Qed.

Lemma tour_degree_facts : degree_facts sites xa.
Proof.
  apply (degree_facts_ext sites (indicator (legs_of (closed c)))).
  - intros. symmetry. by apply Henc.
  - apply cover_degree; [done|].
    pose proof (cycle_cover c tour_NoDup) as [HF HS HI]; [rewrite tour_length; lia|].
    split; [by rewrite HF|by rewrite HS|done].
Qed.

Lemma tour_order_facts : order_facts sites xa (rank c).
Proof.
  pose proof tour_NoDup as Hc. pose proof tour_length as Hl.
  assert (∀ i, i ∈ sites → ∃ p, c !! p = Some i ∧ rank c i = Z.of_nat p
                               ∧ (p < length sites)%nat) as Hpos.
  { intros i Hi. rewrite <- Hperm in Hi.
    apply list_elem_of_lookup in Hi as (p & Hp). exists p.
    split; [done|]. split; [by apply rank_lookup|].
    rewrite <- Hl. by eapply lookup_lt_Some. }
  split.
  - intros i Hi. destruct (Hpos i Hi) as (p & _ & -> & Hlt). lia.
  - intros i j Hi Hj Hne Hio Hjo. rewrite (Henc i j) by done.
    unfold indicator. case_decide as Hleg.
    + apply elem_of_legs_closed in Hleg as (q & Hq & [[Hlt Hq']|[_ Hq']]).
      * rewrite (rank_lookup c q i), (rank_lookup c (S q) j) by done. lia.
      * simpl in Hq'. congruence.
    + destruct (Hpos i Hi) as (p & _ & -> & Hlt).
      destruct (Hpos j Hj) as (p' & _ & -> & Hlt'). lia.
Qed.
End TourIsFeasible.

(** ** A feasible assignment is a single tour *)

Section FeasibleIsTour.
Context (sites : list site) (xa : edge → Z) (ua : site → Z).
Context (Hnd : NoDup sites).
Context (Hdeg : degree_facts sites xa) (Hord : order_facts sites xa ua).

Lemma walk_cons2 a b p : walk sites xa (a :: b :: p) ↔ selected sites xa a b ∧ walk sites xa (b :: p).
Proof.
  unfold walk. rewrite legs_of_cons2. split.
  - intros Hw. split; [apply Hw; by left|]. intros; apply Hw; by right.
  - intros [Hab Hw] a' b' [?|?]%elem_of_cons; [by simplify_eq|by apply Hw].
Qed.

Lemma walk_single a : walk sites xa [a].
Proof. intros ? ? H. by apply elem_of_nil in H. Qed.

Lemma successor k : k ∈ sites → ∃ j, selected sites xa k j ∧ ∀ j', selected sites xa k j' → j' = j.
Proof.
  intros Hk. destruct Hdeg as [Hb _ Ho].
  destruct (sum_one_unique (λ i, xa (k, i)) (filter (λ i, i ≠ k) sites))
    as (j & [Hne Hj]%list_elem_of_filter & Hone & Huniq).
  - intros i [Hne Hi]%list_elem_of_filter. apply Hb; by try done.
  - by apply Ho.
  - exists j. split; [by repeat split|].
    intros j' (_ & Hj' & Hne' & Hone'). apply Huniq; [|done].
    apply list_elem_of_filter. split; [by apply not_eq_sym|done].
Qed.

Lemma predecessor k : k ∈ sites → ∃ i, selected sites xa i k ∧ ∀ i', selected sites xa i' k → i' = i.
Proof.
  intros Hk. destruct Hdeg as [Hb Hi _].
  destruct (sum_one_unique (λ i, xa (i, k)) (filter (λ i, i ≠ k) sites))
    as (i & [Hne Hin]%list_elem_of_filter & Hone & Huniq).
  - intros i [Hne Hin]%list_elem_of_filter. apply Hb; by try done.
  - by apply Hi.
  - exists i. split; [by repeat split|].
    intros i' (Hi' & _ & Hne' & Hone'). apply Huniq; [|done].
    by apply list_elem_of_filter.
Qed.

Lemma selected_out_unique k j j' : selected sites xa k j → selected sites xa k j' → j = j'.
Proof.
  intros Hj Hj'. destruct (successor k) as (j0 & _ & Huniq); [apply Hj|].
  by rewrite (Huniq j), (Huniq j').
Qed.

Lemma selected_in_unique k i i' : selected sites xa i k → selected sites xa i' k → i = i'.
Proof.
  intros Hi Hi'. destruct (predecessor k) as (i0 & _ & Huniq); [apply Hi|].
  by rewrite (Huniq i), (Huniq i').
Qed.

(** Along a selected sites xa edge that avoids ['org'] the order grows. *)
Lemma order_grows i j : selected sites xa i j → i ≠ "org" → j ≠ "org" → ua i + 1 ≤ ua j.
Proof.
  intros (Hi & Hj & Hne & Hone) Hio Hjo.
  pose proof (of_mtz _ _ _ Hord i j Hi Hj Hne Hio Hjo) as Hm.
  rewrite Hone in Hm. lia.
Qed.

(** From any other site the selected sites xa edges lead to ['org']. *)
Lemma walk_to_org n :
  ∀ v, v ∈ sites → v ≠ "org" → Z.of_nat (length sites) - ua v ≤ Z.of_nat n →
  ∃ l, walk sites xa (v :: l ++ ["org"]) ∧ ("org" ∉ l) ∧ NoDup (v :: l)
       ∧ (∀ w, w ∈ l → ua v < ua w) ∧ (∀ w, w ∈ l → w ∈ sites).
Proof.
  induction n as [|n IH]; intros v Hv Hvo Hm.
  { pose proof (of_bounds _ _ _ Hord v Hv). lia. }
  destruct (successor v Hv) as (s & Hs & _).
  destruct (decide (s = "org")) as [->|Hso].
  - exists []. split; [|split; [|split; [|split]]].
    + apply walk_cons2. split; [done|apply walk_single].
    + apply not_elem_of_nil.
    + apply NoDup_singleton.
    + intros w Hw. by apply elem_of_nil in Hw.
    + intros w Hw. by apply elem_of_nil in Hw.
  - pose proof (order_grows v s Hs Hvo Hso) as Hgrow.
    destruct (IH s) as (l & Hw & Hol & Hndl & Hul & Hsl); [apply Hs|done|lia|].
    exists (s :: l). split; [|split; [|split; [|split]]].
    + apply walk_cons2. by split.
    + by apply not_elem_of_cons.
    + apply NoDup_cons. split; [|done].
      intros [->|Hin]%elem_of_cons; [lia|]. specialize (Hul v Hin). lia.
    + intros w [->|Hin]%elem_of_cons; [lia|]. specialize (Hul w Hin). lia.
    + intros w [->|Hin]%elem_of_cons; [apply Hs|by apply Hsl].
Qed.

Lemma reaches_org v :
  v ∈ sites → v ≠ "org" →
  ∃ l, walk sites xa (v :: l ++ ["org"]) ∧ ("org" ∉ l) ∧ NoDup (v :: l) ∧ (∀ w, w ∈ l → w ∈ sites).
Proof.
  intros Hv Hvo. pose proof (of_bounds _ _ _ Hord v Hv).
  destruct (walk_to_org (Z.to_nat (Z.of_nat (length sites) - ua v)) v)
    as (l & ? & ? & ? & _ & ?); [done|done|lia|].
  by exists l.
Qed.
Lemma walk_in_sites p a : walk sites xa p → (2 ≤ length p)%nat → a ∈ p → a ∈ sites.
Proof.
  intros Hw Hlen [i Hi]%list_elem_of_lookup.
  destruct i as [|i].
  - destruct p as [|a' [|b p]]; simpl in *; try lia. simplify_eq.
    apply (Hw a b). by left.
  - destruct (lookup_lt_is_Some_2 p i) as [z Hz];
      [apply lookup_lt_Some in Hi; lia|].
    apply (Hw z a). apply elem_of_legs_of. by exists i.
Qed.

(** A set of sites closed under selected sites xa predecessors contains every
    site from which a walk leads into it. *)
Lemma walk_back (c : list site) :
  (∀ y w, y ∈ c → selected sites xa w y → w ∈ c) →
  ∀ p o, o ∈ c → walk sites xa (p ++ [o]) → ∀ w, w ∈ p → w ∈ c.
Proof.
  intros Hclosed p o Ho. induction p as [|a p IH]; intros Hw w Hin.
  { by apply elem_of_nil in Hin. }
  assert (∃ b q, p ++ [o] = b :: q ∧ b ∈ c ∧ walk sites xa (b :: q) ∧ selected sites xa a b)
    as (b & q & Hpq & Hb & Hbq & Hab).
  { destruct p as [|b p].
    - exists o, []. simpl in Hw. apply walk_cons2 in Hw as [? ?].
      split; [done|]. split; [done|]. by split.
    - exists b, (p ++ [o]). simpl in Hw. apply walk_cons2 in Hw as [? ?].
      split; [done|]. split; [apply IH; [done|by left]|]. by split. }
  apply elem_of_cons in Hin as [->|Hin].
  - by eapply Hclosed.
  - apply IH; [|done]. by rewrite Hpq.
Qed.

Context (Horg : "org" ∈ sites).

(** The tour through all the sites. *)
Lemma feasible_tour :
  ∃ rest, "org" :: rest ≡ₚ sites ∧ walk sites xa (closed ("org" :: rest)).
Proof.
  destruct (successor "org" Horg) as (s & Hs & _).
  pose proof Hs as (_ & Hs_in & Hs_ne & _).
  destruct (reaches_org s) as (l & Hw & Hol & Hndl & Hsl); [done|congruence|].
  set (c := "org" :: s :: l).
  assert (walk sites xa (closed c)) as Hwc.
  { subst c. rewrite closed_cons. apply walk_cons2. by split. }
  assert (NoDup c) as Hndc.
  { subst c. apply NoDup_cons. split; [|done].
    intros [Heq|Hin]%elem_of_cons; [congruence|done]. }
  assert (∀ y, y ∈ c → y ∈ sites) as Hsub.
  { intros y [->|[->|Hy]%elem_of_cons]%elem_of_cons; [done|done|by apply Hsl]. }
  assert (∀ y w, y ∈ c → selected sites xa w y → w ∈ c) as Hclosed.
  { intros y w Hy Hwy.
    assert (y ∈ (legs_of (closed c)).*2) as ([z y'] & Hy' & Hz)%list_elem_of_fmap.
    { rewrite legs_of_snd. unfold c in *.
      change (tail (closed ("org" :: s :: l))) with ((s :: l) ++ ["org"]).
      by rewrite <- Permutation_cons_append. }
    simpl in Hy'. subst y'.
    rewrite (selected_in_unique y w z Hwy (Hwc z y Hz)).
    assert (z ∈ (legs_of (closed c)).*1) as Hz1.
    { apply list_elem_of_fmap. by exists (z, y). }
    unfold c in *.
    change (closed ("org" :: s :: l)) with (("org" :: s :: l) ++ ["org"]) in Hz1.
    by rewrite legs_of_fst_snoc in Hz1. }
  exists (s :: l). split; [|done].
  apply NoDup_Permutation; [done|done|]. intros w. split; [apply Hsub|].
  intros Hwin. destruct (decide (w = "org")) as [->|Hwo]; [by left|].
  destruct (reaches_org w Hwin Hwo) as (lw & Hww & _).
  apply (walk_back c Hclosed (w :: lw) "org"); [by left|done|by left].
Qed.

Lemma feasible_encodes rest :
  "org" :: rest ≡ₚ sites → walk sites xa (closed ("org" :: rest)) →
  encodes sites ("org" :: rest) xa.
Proof.
  intros Hperm Hw i j Hi Hj Hne. unfold indicator. case_decide as Hleg.
  - by destruct (Hw i j Hleg) as (_ & _ & _ & ?).
  - pose proof (df_binary _ _ Hdeg i j Hi Hj Hne) as Hb.
    destruct (decide (xa (i, j) = 1)) as [Hone|Hone]; [|lia].
    exfalso. apply Hleg.
    assert (i ∈ (legs_of (closed ("org" :: rest))).*1)
      as ([i' j'] & Hi' & Hij')%list_elem_of_fmap.
    { change (closed ("org" :: rest)) with (("org" :: rest) ++ ["org"]).
      by rewrite legs_of_fst_snoc, Hperm. }
    simpl in Hi'. subst i'.
    assert (selected sites xa i j) as Hsel by by repeat split.
    by rewrite (selected_out_unique i j j' Hsel (Hw i j' Hij')).
Qed.

Lemma feasible_hamiltonian : hamiltonian sites xa.
Proof.
  destruct feasible_tour as (rest & Hperm & Hw).
  exists rest. split; [done|]. by apply feasible_encodes.
Qed.
End FeasibleIsTour.

(** ** The order constraints leave no cycle that avoids ['org'] *)

Section NoSubtour.
Context (sites : list site) (xa : edge → Z) (ua : site → Z).
Context (Hord : order_facts sites xa ua).

Lemma increasing_walk (p : list site) :
  (∀ a b, (a, b) ∈ legs_of p → ua a < ua b) →
  ∀ j i x y, p !! i = Some x → p !! j = Some y → (i < j)%nat → ua x < ua y.
Proof.
  intros Hleg. induction j as [|j IH]; intros i x y Hx Hy Hlt; [lia|].
  destruct (lookup_lt_is_Some_2 p j) as [z Hz]; [apply lookup_lt_Some in Hy; lia|].
  assert (ua z < ua y) by (apply Hleg, elem_of_legs_of; by exists j).
  destruct (decide (i = j)) as [->|Hne]; [by simplify_eq|].
  assert (ua x < ua z) by (apply (IH i); [done|done|lia]). lia.
Qed.

Lemma no_cycle_without_org (c : list site) :
  cycle_in xa c → (∀ s, s ∈ c → s ∈ sites) → "org" ∉ c → False.
Proof.
  intros (Hlen & Hndc & Hone) Hsub Horg.
  destruct c as [|h c]; [simpl in Hlen; lia|].
  assert (ua h < ua h); [|lia].
  apply (increasing_walk (closed (h :: c))) with (j := length (h :: c)) (i := 0%nat).
  - intros a b Hab.
    pose proof (cover_irrefl _ _ (cycle_cover _ Hndc Hlen) a b Hab) as Hne.
    pose proof (Hone _ Hab) as Hx.
    apply elem_of_legs_closed in Hab as (i & Ha & Hb).
    assert (a ∈ h :: c) as Hain by by eapply list_elem_of_lookup_2.
    assert (b ∈ h :: c) as Hbin.
    { destruct Hb as [[_ Hb]|[_ Hb]]; by eapply list_elem_of_lookup_2. }
    assert (a ≠ "org") as Hao by by intros ->.
    assert (b ≠ "org") as Hbo by by intros ->.
    pose proof (of_mtz _ _ _ Hord a b (Hsub _ Hain) (Hsub _ Hbin) Hne Hao Hbo) as Hm.
    rewrite Hx in Hm. lia.
  - done.
  - by rewrite closed_lookup_last.
  - simpl. lia.
Qed.

Lemma order_excludes_subtours : ¬ has_subtours sites xa.
Proof.
  intros (c1 & c2 & Hc1 & Hc2 & Hdis & Hs1 & Hs2).
  destruct (decide ("org" ∈ c1)) as [Hin|Hout].
  - apply (no_cycle_without_org c2 Hc2 Hs2). by apply Hdis.
  - by apply (no_cycle_without_org c1 Hc1 Hs1).
Qed.
End NoSubtour.

(** ** The degree constraints alone admit subtours from four sites on *)

Lemma two_cycles_degree (c1 c2 : list site) :
  NoDup (c1 ++ c2) → (2 ≤ length c1)%nat → (2 ≤ length c2)%nat →
  degree_facts (c1 ++ c2) (two_cycles c1 c2) ∧ has_subtours (c1 ++ c2) (two_cycles c1 c2).
Proof.
  intros Hnd Hl1 Hl2. pose proof Hnd as (Hn1 & Hdis & Hn2)%NoDup_app. split.
  - apply cover_degree; [done|]. apply cover_app; by apply cycle_cover.
  - exists c1, c2. split; [|split; [|split; [|split]]].
    + split; [done|]. split; [done|]. intros e He. unfold two_cycles, indicator.
      rewrite decide_True; [done|]. apply elem_of_app. by left.
    + split; [done|]. split; [done|]. intros e He. unfold two_cycles, indicator.
      rewrite decide_True; [done|]. apply elem_of_app. by right.
    + done.
    + intros s Hs. apply elem_of_app. by left.
    + intros s Hs. apply elem_of_app. by right.
Qed.

Lemma subtours_from_four_sites (sites : list site) :
  NoDup sites → (4 ≤ length sites)%nat →
  ∃ xa, degree_facts sites xa ∧ has_subtours sites xa.
Proof.
  intros Hnd Hlen.
  destruct sites as [|s0 [|s1 [|s2 [|s3 rest]]]]; simpl in Hlen; try lia.
  exists (two_cycles [s0; s1] (s2 :: s3 :: rest)).
  apply (two_cycles_degree [s0; s1] (s2 :: s3 :: rest)); [done|simpl; lia|simpl; lia].
Qed.

Lemma subtours_need_four_sites (sites : list site) (xa : edge → Z) :
  has_subtours sites xa → (4 ≤ length sites)%nat.
Proof.
  intros (c1 & c2 & (Hl1 & Hn1 & _) & (Hl2 & Hn2 & _) & Hdis & Hs1 & Hs2).
  assert (c1 ++ c2 ⊆+ sites) as Hsub%submseteq_length.
  { apply NoDup_submseteq; [by apply NoDup_app|].
    intros s [?|?]%elem_of_app; eauto. }
  rewrite length_app in Hsub. lia.
Qed.

(** ** Three sites: the degree constraints already force a tour *)

Lemma abc_sites_NoDup : NoDup abc_sites.
Proof. unfold abc_sites. by repeat (apply NoDup_cons; split; [set_solver|]); apply NoDup_nil. Qed.

Lemma three_sites_degree_hamiltonian (xa : edge → Z) :
  degree_facts abc_sites xa → hamiltonian abc_sites xa.
Proof.
  intros [Hb Hi Ho].
  assert ("org" ∈ abc_sites) as Horg by (unfold abc_sites; set_solver).
  assert ("A" ∈ abc_sites) as HA by (unfold abc_sites; set_solver).
  assert ("B" ∈ abc_sites) as HB by (unfold abc_sites; set_solver).
  pose proof (Hi "org" Horg) as Hi1. pose proof (Hi "A" HA) as Hi2.
  pose proof (Hi "B" HB) as Hi3. pose proof (Ho "org" Horg) as Ho1.
  pose proof (Ho "A" HA) as Ho2. pose proof (Ho "B" HB) as Ho3.
  change (filter (λ i, i ≠ "org") abc_sites) with ["A"; "B"] in *.
  change (filter (λ i, i ≠ "A") abc_sites) with ["org"; "B"] in *.
  change (filter (λ i, i ≠ "B") abc_sites) with ["org"; "A"] in *.
  cbn in Hi1, Hi2, Hi3, Ho1, Ho2, Ho3.
  pose proof (Hb "org" "A" Horg HA ltac:(done)).
  pose proof (Hb "org" "B" Horg HB ltac:(done)).
  pose proof (Hb "A" "org" HA Horg ltac:(done)).
  pose proof (Hb "A" "B" HA HB ltac:(done)).
  pose proof (Hb "B" "org" HB Horg ltac:(done)).
  pose proof (Hb "B" "A" HB HA ltac:(done)).
  destruct (decide (xa ("org", "A") = 1)) as [Hone|Hone].
  - exists ["A"; "B"]. split; [done|].
    intros i j Hin Hjn Hne. unfold abc_sites in Hin, Hjn.
    repeat (apply elem_of_cons in Hin as [->|Hin]);
      try (by apply elem_of_nil in Hin);
      repeat (apply elem_of_cons in Hjn as [->|Hjn]);
      try (by apply elem_of_nil in Hjn); try done;
      eval_indicator; lia.
  - exists ["B"; "A"]. split; [apply Permutation_skip, Permutation_swap|].
    intros i j Hin Hjn Hne. unfold abc_sites in Hin, Hjn.
    repeat (apply elem_of_cons in Hin as [->|Hin]);
      try (by apply elem_of_nil in Hin);
      repeat (apply elem_of_cons in Hjn as [->|Hjn]);
      try (by apply elem_of_nil in Hjn); try done;
      eval_indicator; lia.
Qed.

(** With any three distinct labels the same holds: the selected edges
    out of ['org'], out of the next site and out of the third site can
    only close one cycle. *)
Lemma three_cycle (sites : list site) (xa : edge → Z) (a b : site) :
  degree_facts sites xa → ["org"; a; b] ≡ₚ sites → NoDup ["org"; a; b] →
  selected sites xa "org" a → walk sites xa (closed ["org"; a; b]).
Proof.
  intros Hdeg Hperm Hnd Hoa.
  assert ("org" ≠ a ∧ "org" ≠ b ∧ a ≠ b) as (Hoa' & Hob' & Hab').
  { apply NoDup_cons in Hnd as [Ho Hnd]. apply NoDup_cons in Hnd as [Ha _].
    rewrite !elem_of_cons in Ho. rewrite elem_of_cons in Ha. tauto. }
  assert (∀ s, s ∈ sites → s = "org" ∨ s = a ∨ s = b) as Hin.
  { intros s Hs. rewrite <- Hperm in Hs. rewrite !elem_of_cons in Hs.
    destruct Hs as [?|[?|[?|Hs]]]; [tauto|tauto|tauto|by apply elem_of_nil in Hs]. }
  assert (a ∈ sites ∧ b ∈ sites) as [Ha Hb].
  { rewrite <- Hperm. split; [right; by left|right; right; by left]. }
  assert (selected sites xa a b) as Hsab.
  { destruct (successor sites xa Hdeg a Ha) as (s & Hs & _).
    pose proof Hs as (_ & Hs_in & Hs_ne & _).
    destruct (Hin s Hs_in) as [-> | [-> | ->]]; [|done|done].
    exfalso. destruct (successor sites xa Hdeg b Hb) as (s' & Hs' & _).
    pose proof Hs' as (_ & Hs'_in & Hs'_ne & _).
    destruct (Hin s' Hs'_in) as [-> | [-> | ->]]; [| |done].
    - apply Hab'. by apply (selected_in_unique sites xa Hdeg "org").
    - apply Hob'. symmetry. by apply (selected_in_unique sites xa Hdeg a). }
  assert (selected sites xa b "org") as Hsbo.
  { destruct (successor sites xa Hdeg b Hb) as (s & Hs & _).
    pose proof Hs as (_ & Hs_in & Hs_ne & _).
    destruct (Hin s Hs_in) as [-> | [-> | ->]]; [done| |done].
    exfalso. apply Hob'. symmetry. by apply (selected_in_unique sites xa Hdeg a). }
  intros i j Hleg. unfold closed in Hleg. cbn in Hleg.
  rewrite !elem_of_cons in Hleg.
  destruct Hleg as [?|[?|[?|Hleg]]]; [by simplify_eq..|by apply elem_of_nil in Hleg].
Qed.

Lemma three_sites_force_tour (sites : list site) (xa : edge → Z) :
  NoDup sites → length sites = 3%nat → "org" ∈ sites →
  degree_facts sites xa → hamiltonian sites xa.
Proof.
  intros Hnd Hlen Horg Hdeg.
  pose proof Horg as (l1 & l2 & Hs)%list_elem_of_split.
  assert ("org" :: (l1 ++ l2) ≡ₚ sites) as Hperm by by rewrite Hs, Permutation_middle.
  assert (∃ a b, l1 ++ l2 = [a; b]) as (a & b & Hab).
  { rewrite Hs, length_app in Hlen. simpl in Hlen.
    assert (length (l1 ++ l2) = 2%nat) as H2 by (rewrite length_app; lia).
    destruct (l1 ++ l2) as [|a [|b [|? ?]]]; simpl in H2; try lia. by exists a, b. }
  rewrite Hab in Hperm.
  assert (NoDup ["org"; a; b]) as Hnd3 by by rewrite Hperm.
  destruct (successor sites xa Hdeg "org" Horg) as (s & Hsel & _).
  pose proof Hsel as (_ & Hs_in & Hs_ne & _).
  rewrite <- Hperm in Hs_in. rewrite !elem_of_cons in Hs_in.
  destruct Hs_in as [?|[->|[->|Hs_in]]]; [congruence| | |by apply elem_of_nil in Hs_in].
  - exists [a; b]. split; [done|].
    apply feasible_encodes; [done|done|]. by apply three_cycle.
  - assert (["org"; b; a] ≡ₚ sites) as Hperm'.
    { rewrite <- Hperm. apply Permutation_skip, Permutation_swap. }
    exists [b; a]. split; [done|].
    apply feasible_encodes; [done|done|]. apply three_cycle; try done.
    by rewrite Hperm'.
Qed.

(** ** The feasible region of the assembled model *)

(** C1, with the subtour remark from four sites on: for distinct sites,
    at least three of them, ['org'] among them, and a complete distance
    dictionary, the model is built and an assignment to [x] extends by some
    order [u] to a feasible assignment exactly when it is a single cycle
    through all the sites from ['org'] back to ['org']; no feasible
    assignment contains two disjoint cycles; every such cycle, with the
    positions in the tour as ranks [u], satisfies every bound and
    constraint; with at least four sites the model before the subtour
    loop has a feasible assignment that contains two disjoint cycles; and
    with exactly three sites every feasible assignment of the model before
    the subtour loop is already a single cycle through ['org'] and
    contains no two disjoint cycles. *)
Theorem mtz_feasible_region (sites : list site) (distances : gmap edge Z) :
  NoDup sites → (3 ≤ length sites)%nat → "org" ∈ sites → complete sites distances →
  ∃ dnb nb,
    degree_model sites distances = Ok dnb ∧ build_model sites distances = Ok nb
    ∧ (∀ xa, (∃ ua, feasible nb (assign xa ua)) ↔ hamiltonian sites xa)
    ∧ (∀ xa ua, feasible nb (assign xa ua) → ¬ has_subtours sites xa)
    ∧ (∀ rest xa, "org" :: rest ≡ₚ sites → encodes sites ("org" :: rest) xa →
         feasible nb (assign xa (rank ("org" :: rest))))
    ∧ ((4 ≤ length sites)%nat →
         ∃ xa, (∀ ua, feasible dnb (assign xa ua)) ∧ has_subtours sites xa)
    ∧ (length sites = 3%nat →
         ∀ xa ua, feasible dnb (assign xa ua) →
                  hamiltonian sites xa ∧ ¬ has_subtours sites xa).
Proof.
  intros Hnd Hlen Horg Hc.
  destruct (degree_model sites distances) as [dnb|] eqn:Hdm;
    [|by rewrite degree_model_Ok in Hdm].
  destruct (build_model sites distances) as [nb|] eqn:Hbm;
    [|by rewrite build_model_Ok in Hbm].
  exists dnb, nb. split; [done|]. split; [done|].
  assert (∀ rest xa, "org" :: rest ≡ₚ sites → encodes sites ("org" :: rest) xa →
            feasible nb (assign xa (rank ("org" :: rest)))) as Htour.
  { intros rest xa Hperm Henc. apply (feasible_iff sites distances Hc _ _ nb Hbm).
    split; [eapply tour_degree_facts|eapply tour_order_facts]; try done; lia. }
  split; [|split; [|split; [|split]]].
  - intros xa. split.
    + intros (ua & [Hdeg Hord]%(feasible_iff sites distances Hc _ _ nb Hbm)).
      by eapply feasible_hamiltonian.
    + intros (rest & Hperm & Henc). exists (rank ("org" :: rest)). by apply Htour.
  - intros xa ua [_ Hord]%(feasible_iff sites distances Hc _ _ nb Hbm).
    by eapply order_excludes_subtours.
  - done.
  - intros Hfour. destruct (subtours_from_four_sites sites Hnd Hfour) as (xa & Hdeg & Hsub).
    exists xa. split; [|done]. intros ua.
    by apply (degree_feasible_iff sites distances Hc _ _ dnb Hdm).
  - intros Hthree xa ua Hdeg%(degree_feasible_iff sites distances Hc _ _ dnb Hdm).
    split; [by apply three_sites_force_tour|].
    intros Hsub%subtours_need_four_sites. lia.
Qed.

Lemma abcd_sites_NoDup : NoDup abcd_sites.
Proof. unfold abcd_sites. by repeat (apply NoDup_cons; split; [set_solver|]); apply NoDup_nil. Qed.

Lemma mtz_feasible_region_witness : ∃ xa, has_subtours abcd_sites xa.
Proof.
  destruct (mtz_feasible_region abcd_sites (distances_cell abcd_sites (λ _ _, 10)))
    as (dnb & nb & _ & _ & _ & _ & _ & Hsub & _).
  - exact abcd_sites_NoDup.
  - simpl. lia.
  - unfold abcd_sites. by left.
  - apply distances_cell_complete.
  - destruct Hsub as (xa & _ & Hxa); [simpl; lia|]. by exists xa.
Defined.

(** With three sites the claim's remark on the degree constraints fails:
    every assignment feasible for the model before the subtour loop is
    already a single tour through ['org'] and contains no two disjoint
    cycles. *)
Lemma three_sites_counterexample :
  NoDup abc_sites ∧ (3 ≤ length abc_sites)%nat ∧ "org" ∈ abc_sites
  ∧ complete abc_sites abc_distances
  ∧ ∃ dnb, degree_model abc_sites abc_distances = Ok dnb
           ∧ ∀ xa ua, feasible dnb (assign xa ua) →
                      hamiltonian abc_sites xa ∧ ¬ has_subtours abc_sites xa.
Proof.
  split; [exact abc_sites_NoDup|]. split; [simpl; lia|]. split; [by left|].
  split; [apply distances_cell_complete|].
  destruct (degree_model abc_sites abc_distances) as [dnb|] eqn:Hdm;
    [|by rewrite degree_model_Ok in Hdm].
  exists dnb. split; [done|]. intros xa ua Hf.
  apply (degree_feasible_iff abc_sites abc_distances (distances_cell_complete _ _)
           _ _ dnb Hdm) in Hf.
  split; [by apply three_sites_degree_hamiltonian|].
  intros Hsub%subtours_need_four_sites. simpl in Hsub. lia.
Qed.

(** ** The legs of the decoded tour *)

Lemma comprehension_ext_in {A B} (f g : A → result B) l :
  (∀ a, a ∈ l → f a = g a) → comprehension f l = comprehension g l.
Proof.
  induction l as [|a l IH]; intros Hfg; [done|]. simpl.
  rewrite Hfg by left. rewrite IH; [done|]. intros; apply Hfg; by right.
Qed.

Lemma comprehension_fmap {A B C} (f : B → result C) (h : A → B) l :
  comprehension f (h <$> l) = comprehension (f ∘ h) l.
Proof. induction l as [|a l IH]; [done|]. rewrite fmap_cons. cbn [comprehension]. by rewrite IH. Qed.

Lemma tour_legs_pairs (distances : gmap edge Z) (t : list site) :
  tour_legs distances t = comprehension (getitem distances) (legs_of t).
Proof.
  unfold tour_legs. induction t as [|a t IH]; [done|].
  destruct t as [|b t]; [done|].
  rewrite legs_of_cons2.
  change (length (a :: b :: t) - 1)%nat with (S (length t)).
  replace (length (b :: t) - 1)%nat with (length t) in IH by (simpl; lia).
  assert (comprehension
            (λ i, x ← list_getitem (a :: b :: t) (i - 1);
                  y ← list_getitem (a :: b :: t) i; getitem distances (x, y))
            (seq 2 (length t))
          = comprehension (getitem distances) (legs_of (b :: t))) as Htail.
  { rewrite <- IH, <- fmap_S_seq, comprehension_fmap.
    apply comprehension_ext_in. intros i [Hi _]%elem_of_seq.
    destruct i as [|i]; [lia|]. simpl. by rewrite Nat.sub_0_r. }
  simpl seq. cbn [comprehension]. rewrite Htail.
  change (list_getitem (a :: b :: t) (1 - 1)) with (Ok a).
  change (list_getitem (a :: b :: t) 1) with (Ok b).
  done.
Qed.

Lemma comprehension_getitem_Ok (distances : gmap edge Z) (l : list edge) :
  (∀ e, e ∈ l → e ∈ dom distances) →
  ∃ ds, comprehension (getitem distances) l = Ok ds
        ∧ Forall2 (λ e d, distances !! e = Some d) l ds.
Proof.
  induction l as [|e l IH]; intros Hin.
  - exists []. by split.
  - destruct IH as (ds & Hds & Hall); [intros; apply Hin; by right|].
    assert (e ∈ dom distances) as [d Hd]%elem_of_dom by (apply Hin; by left).
    exists (d :: ds). simpl. rewrite (getitem_Some _ _ _ Hd), Hds. simpl.
    split; [done|]. by constructor.
Qed.

(** ** Decoding a solved tour *)

Section DecodeTour.
Context (sites rest : list site) (distances : gmap edge Z).
Context (xa : edge → Z) (xv : gmap edge Q).
Context (Hnd : NoDup sites) (Hcomplete : complete sites distances).
Context (Hperm : "org" :: rest ≡ₚ sites).
Context (Henc : encodes sites ("org" :: rest) xa).
Context (Hreads : reads xv distances xa).

Let c := "org" :: rest.

Lemma edge_value k k' :
  k ∈ c → k' ∈ c → k ≠ k' →
  xv !! (k, k') = Some (inject_Z (indicator (legs_of (closed c)) (k, k'))).
Proof.
  intros Hk Hk' Hne. subst c. rewrite Hperm in Hk, Hk'.
  rewrite Hreads by by apply Hcomplete. by rewrite Henc.
Qed.

Lemma next_leg donep cur k todo :
  c = donep ++ cur :: k :: todo → (cur, k) ∈ legs_of (closed c).
Proof.
  intros Hc. apply elem_of_legs_closed. exists (length donep). rewrite Hc.
  split; [by rewrite list_lookup_middle|]. left.
  rewrite (cons_middle cur), app_assoc.
  split; [|rewrite list_lookup_middle; [done|rewrite length_app; simpl; lia]].
  rewrite !length_app. simpl. lia.
Qed.

Lemma follow todo :
  ∀ donep cur sl fuel,
    c = donep ++ cur :: todo → sl ≡ₚ todo → (length todo < fuel)%nat →
    ∃ o, while xv fuel {| sites_left := sl; org := cur; tour := donep ++ [cur] |}
         = Some (Ok {| sites_left := []; org := o; tour := c |}).
Proof.
  assert (NoDup c) as Hndc by (subst c; by rewrite Hperm).
  induction todo as [|k todo IH]; intros donep cur sl fuel Hc Hsl Hfuel.
  - apply Permutation_nil_r in Hsl as ->.
    destruct fuel as [|fuel]; [simpl in Hfuel; lia|]. simpl.
    exists cur. by rewrite Hc.
  - destruct fuel as [|fuel]; [simpl in Hfuel; lia|].
    assert (k ∈ sl) as (l1 & l2 & -> & Hk1)%list_elem_of_split_l
      by (rewrite Hsl; by left).
    assert (l1 ++ l2 ≡ₚ todo) as Hrest.
    { apply (Permutation_cons_inv (a := k)). by rewrite Permutation_middle. }
    assert (cur ∈ c) as Hcur by (rewrite Hc; apply elem_of_app; right; by left).
    assert (∀ k', k' ∈ k :: todo → k' ∈ c ∧ cur ≠ k') as Htodo.
    { intros k' Hk'. rewrite Hc in Hndc |- *.
      apply NoDup_app in Hndc as (_ & _ & [Hcur' _]%NoDup_cons).
      split; [apply elem_of_app; right; by right|by intros ->]. }
    pose proof (next_leg donep cur k todo Hc) as Hleg.
    assert (body xv {| sites_left := l1 ++ k :: l2; org := cur; tour := donep ++ [cur] |}
            = Ok (advance {| sites_left := l1 ++ k :: l2; org := cur;
                             tour := donep ++ [cur] |} k (l1 ++ l2))) as Hbody.
    { apply (body_first_hit _ _ l1 k l2 (inject_Z 1)); [done| | |done].
      - intros k' Hk'. simpl.
        assert (k' ∈ k :: todo) as Hin
          by (rewrite <- Hsl; apply elem_of_app; by left).
        destruct (Htodo k' Hin) as [Hk'c Hne].
        exists (inject_Z 0). rewrite edge_value by done. split; [|done].
        unfold indicator. rewrite decide_False; [done|]. intros Hleg'.
        apply Hk1. replace k with k'; [done|].
        eapply NoDup_fst_functional; [|exact Hleg'|exact Hleg].
        by rewrite (cover_fst _ _ (cycle_cover c Hndc ltac:(rewrite Hc, length_app; simpl; lia))).
      - simpl. destruct (Htodo k) as [Hkc Hne]; [by left|].
        rewrite edge_value by done. unfold indicator. by rewrite decide_True. }
    simpl. rewrite decide_True by (rewrite length_app; simpl; lia).
    change (for_k xv ?st (l1 ++ k :: l2)) with (body xv st). rewrite Hbody.
    unfold advance. simpl. apply IH.
    + by rewrite <- app_assoc.
    + done.
    + simpl in Hfuel. lia.
Qed.

Lemma start_tour :
  ∃ sl, start sites "org" = Ok {| sites_left := sl; org := "org"; tour := ["org"] |}
        ∧ sl ≡ₚ rest.
Proof.
  assert ("org" ∈ sites) as (l1 & l2 & Hs & Ho)%list_elem_of_split_l
    by (rewrite <- Hperm; by left).
  exists (l1 ++ l2). split.
  - unfold start. by rewrite (move_split _ l1 "org" l2).
  - apply (Permutation_cons_inv (a := "org")).
    by rewrite Permutation_middle, <- Hs.
Qed.

Lemma decode_tour fuel :
  rest ≠ [] → (length sites ≤ fuel)%nat →
  ∃ legs, decode sites xv distances fuel = Some (Ok (closed c, sum legs))
          ∧ Forall2 (λ e d, distances !! e = Some d) (legs_of (closed c)) legs.
Proof.
  intros Hrest Hfuel. assert (NoDup c) as Hndc by (subst c; by rewrite Hperm).
  assert (length c = length sites) as Hlen by (subst c; by rewrite Hperm).
  destruct start_tour as (sl & Hstart & Hsl).
  destruct (follow rest [] "org" sl fuel) as (o & Hwhile);
    [done|done|simpl in Hlen; lia|].
  destruct (comprehension_getitem_Ok distances (legs_of (closed c)))
    as (legs & Hlegs & Hall).
  { intros [a b] Hab. apply Hcomplete.
    destruct rest as [|r rest'] eqn:Hr; [done|].
    pose proof (cover_irrefl _ _ (cycle_cover c Hndc ltac:(simpl; lia)) a b Hab) as Hne.
    apply elem_of_legs_closed in Hab as (i & Ha & Hb).
    split; [|split; [|done]]; rewrite <- Hperm.
    - by eapply list_elem_of_lookup_2.
    - destruct Hb as [[_ Hb]|[_ Hb]]; by eapply list_elem_of_lookup_2. }
  exists legs. split; [|done].
  unfold decode, decode_from. rewrite Hstart. simpl in Hwhile. rewrite Hwhile.
  cbn [tour]. change (c ++ ["org"]) with (closed c).
  rewrite tour_legs_pairs, Hlegs. done.
Qed.
End DecodeTour.

(** C6: when the solver's values are exactly the 0/1 values of a feasible
    assignment of the model over [N] distinct sites with ['org'] among
    them, the tour cell returns, given fuel for [N] passes, a sequence of
    [N+1] sites that is ['org'], then every other site exactly once, then
    ['org']; each of its [N] consecutive pairs is a selected edge, and the
    reported total is the sum, written out with [Z.add], of the [N]
    entries of [distances] at those pairs. *)
Theorem decode_feasible_solution (sites : list site) (distances : gmap edge Z)
    (nb : notebook) (xa : edge → Z) (ua : site → Z) (xv : gmap edge Q) (fuel : nat) :
  NoDup sites → "org" ∈ sites → complete sites distances →
  build_model sites distances = Ok nb → feasible nb (assign xa ua) →
  reads xv distances xa → (length sites ≤ fuel)%nat →
  ∃ t rest legs total,
    decode sites xv distances fuel = Some (Ok (t, total))
    ∧ t = "org" :: rest ++ ["org"]
    ∧ length t = S (length sites)
    ∧ head t = Some "org" ∧ last t = Some "org"
    ∧ NoDup ("org" :: rest) ∧ "org" :: rest ≡ₚ sites
    ∧ (∀ e, e ∈ legs_of t → xa e = 1)
    ∧ Forall2 (λ e d, distances !! e = Some d) (legs_of t) legs
    ∧ length legs = length sites
    ∧ total = foldr Z.add 0 legs.
Proof.
  intros Hnd Horg Hc Hbm [Hdeg Hord]%(feasible_iff sites distances Hc _ _ nb Hbm)
    Hreads Hfuel.
  destruct (feasible_tour sites xa ua Hnd Hdeg Hord Horg) as (rest & Hperm & Hwalk).
  pose proof (feasible_encodes sites xa Hdeg rest Hperm Hwalk) as Henc.
  assert (rest ≠ []) as Hrest.
  { destruct (successor sites xa Hdeg "org" Horg) as (s & (_ & Hs & Hne & _) & _).
    rewrite <- Hperm in Hs. apply elem_of_cons in Hs as [?|Hs]; [congruence|].
    intros ->. by apply elem_of_nil in Hs. }
  destruct (decode_tour sites rest distances xa xv Hnd Hc Hperm Henc Hreads fuel
              Hrest Hfuel) as (legs & Hdec & Hall).
  exists (closed ("org" :: rest)), rest, legs, (foldr Z.add 0 legs).
  assert (length (closed ("org" :: rest)) = S (length sites)) as Hlen.
  { rewrite closed_cons. simpl. rewrite length_app, <- Hperm. simpl. lia. }
  split; [exact Hdec|]. split; [done|]. split; [done|]. split; [done|].
  split; [rewrite closed_cons; apply (last_snoc "org" ("org" :: rest))|].
  split; [by rewrite Hperm|]. split; [done|].
  split; [intros [a b] Hab; by destruct (Hwalk a b Hab) as (_ & _ & _ & ?)|].
  split; [done|]. split; [|done].
  apply Forall2_length in Hall. rewrite <- Hall, length_legs_of. lia.
Qed.

Lemma abc_tour_reads : reads abc_tour_values abc_distances abc_tour.
Proof.
  intros [i j] (Hi & Hj & Hne)%distances_cell_complete. unfold abc_sites in Hi, Hj.
  repeat (apply elem_of_cons in Hi as [->|Hi]); try (by apply elem_of_nil in Hi);
    repeat (apply elem_of_cons in Hj as [->|Hj]); try (by apply elem_of_nil in Hj);
    try done; reflexivity.
Qed.

Lemma abc_tour_feasible nb :
  build_model abc_sites abc_distances = Ok nb →
  feasible nb (assign abc_tour (rank abc_sites)).
Proof.
  intros Hbm.
  apply (feasible_iff abc_sites abc_distances (distances_cell_complete _ _) _ _ nb Hbm).
  split.
  - apply (tour_degree_facts abc_sites ["A"; "B"]);
      [exact abc_sites_NoDup|simpl; lia|done|by intros ???].
  - apply (tour_order_facts abc_sites ["A"; "B"]);
      [exact abc_sites_NoDup|simpl; lia|done|by intros ???].
Qed.

(** The same tour over distances that differ from pair to pair. *)
Lemma abc_varied_reads : reads abc_tour_values abc_varied_distances abc_tour.
Proof.
  intros [i j] (Hi & Hj & Hne)%distances_cell_complete. unfold abc_sites in Hi, Hj.
  repeat (apply elem_of_cons in Hi as [->|Hi]); try (by apply elem_of_nil in Hi);
    repeat (apply elem_of_cons in Hj as [->|Hj]); try (by apply elem_of_nil in Hj);
    try done; reflexivity.
Qed.

Lemma abc_varied_feasible nb :
  build_model abc_sites abc_varied_distances = Ok nb →
  feasible nb (assign abc_tour (rank abc_sites)).
Proof.
  intros Hbm.
  apply (feasible_iff abc_sites abc_varied_distances (distances_cell_complete _ _) _ _ nb Hbm).
  split.
  - apply (tour_degree_facts abc_sites ["A"; "B"]);
      [exact abc_sites_NoDup|simpl; lia|done|by intros ???].
  - apply (tour_order_facts abc_sites ["A"; "B"]);
      [exact abc_sites_NoDup|simpl; lia|done|by intros ???].
Qed.

Lemma abc_tour_skips_B : abc_tour ("org", "B") ≠ 1.
Proof. by vm_compute. Qed.

Lemma abc_varied_legs (legs : list Z) :
  Forall2 (λ e d, abc_varied_distances !! e = Some d)
          [("org", "A"); ("A", "B"); ("B", "org")] legs →
  legs = [11; 23; 35].
Proof.
  intros (d1 & l1 & H1 & (d2 & l2 & H2 & (d3 & l3 & H3 & ->%Forall2_nil_inv_l & ->)
            %Forall2_cons_inv_l & ->)%Forall2_cons_inv_l & ->)%Forall2_cons_inv_l.
  vm_compute in H1, H2, H3. congruence.
Qed.

Lemma decode_feasible_solution_witness :
  decode abc_sites abc_tour_values abc_varied_distances 3
  = Some (Ok (["org"; "A"; "B"; "org"], 69)).
Proof.
  destruct (build_model abc_sites abc_varied_distances) as [nb|] eqn:Hbm;
    [|by rewrite build_model_Ok in Hbm].
  destruct (decode_feasible_solution abc_sites abc_varied_distances nb abc_tour
              (rank abc_sites) abc_tour_values 3 abc_sites_NoDup ltac:(by left)
              (distances_cell_complete _ _) Hbm (abc_varied_feasible nb Hbm)
              abc_varied_reads ltac:(simpl; lia))
    as (t & rest & legs & total & Hdec & Ht & _ & _ & _ & _ & Hperm & Hsel & Hall
        & _ & Htotal).
  clear Hbm. apply Permutation_cons_inv in Hperm. symmetry in Hperm.
  apply Permutation_length_2_inv in Hperm as [Hrest|Hrest]; subst rest t.
  - apply abc_varied_legs in Hall. subst legs total. exact Hdec.
  - exfalso. apply abc_tour_skips_B, Hsel. by left.
Defined.

(** With all distances equal to 10, every feasible assignment over the
    three sites has objective value 30. *)
Lemma abc_objective_constant (nb : notebook) (obj : LpExpr) (xa : edge → Z) (ua : site → Z) :
  build_model abc_sites abc_distances = Ok nb → objective (nb_prob nb) = Some obj →
  feasible nb (assign xa ua) → value (assign xa ua) obj = 30.
Proof.
  intros Hbm Hobj
    [[_ _ Ho] _]%(feasible_iff abc_sites abc_distances (distances_cell_complete _ _) _ _ nb Hbm).
  rewrite build_model_Ok in Hbm. injection Hbm as <-. injection Hobj as <-.
  assert ("org" ∈ abc_sites) as Horg by by left.
  assert ("A" ∈ abc_sites) as HA by (right; by left).
  assert ("B" ∈ abc_sites) as HB by (right; right; by left).
  pose proof (Ho "org" Horg) as Ho1. pose proof (Ho "A" HA) as Ho2.
  pose proof (Ho "B" HB) as Ho3.
  change (filter (λ i, i ≠ "org") abc_sites) with ["A"; "B"] in *.
  change (filter (λ i, i ≠ "A") abc_sites) with ["org"; "B"] in *.
  change (filter (λ i, i ≠ "B") abc_sites) with ["org"; "A"] in *.
  cbn in Ho1, Ho2, Ho3.
  rewrite value_lpSum. unfold objective_terms. rewrite <- list_fmap_compose.
  set (entries := map_to_list abc_distances). vm_compute in entries. subst entries.
  cbn. lia.
Qed.

(** The claim as it was written fails for solver values that are feasible
    and optimal only up to the solver's tolerance: the tour
    [org, A, B, org] is feasible and, all distances being equal, optimal;
    every value of [abc_near_values] lies within [1e-6] of it; yet the
    cell produces no sequence, whatever the number of passes. *)
Lemma inexact_output_counterexample :
  ∃ nb obj,
    build_model abc_sites abc_distances = Ok nb
    ∧ objective (nb_prob nb) = Some obj
    ∧ feasible nb (assign abc_tour (rank abc_sites))
    ∧ (∀ xa ua, feasible nb (assign xa ua) →
         value (assign abc_tour (rank abc_sites)) obj ≤ value (assign xa ua) obj)
    ∧ (∀ e, e ∈ dom abc_distances →
         ∃ v, abc_near_values !! e = Some v
              ∧ within (1 # 1000000) v (inject_Z (abc_tour e)))
    ∧ ∀ fuel, decode abc_sites abc_near_values abc_distances fuel = None.
Proof.
  destruct (build_model abc_sites abc_distances) as [nb|] eqn:Hbm;
    [|by rewrite build_model_Ok in Hbm].
  destruct (objective (nb_prob nb)) as [obj|] eqn:Hobj;
    [|rewrite build_model_Ok in Hbm; injection Hbm as <-; discriminate Hobj].
  exists nb, obj. split; [reflexivity|]. split; [exact Hobj|].
  pose proof (abc_tour_feasible nb Hbm) as Hfeas.
  split; [exact Hfeas|]. split.
  { intros xa ua Hxa.
    rewrite (abc_objective_constant nb obj _ _ Hbm Hobj Hfeas).
    by rewrite (abc_objective_constant nb obj _ _ Hbm Hobj Hxa). }
  clear Hbm Hobj Hfeas. split.
  - intros [i j] (Hi & Hj & Hne)%distances_cell_complete. unfold abc_sites in Hi, Hj.
    repeat (apply elem_of_cons in Hi as [->|Hi]); try (by apply elem_of_nil in Hi);
      repeat (apply elem_of_cons in Hj as [->|Hj]); try (by apply elem_of_nil in Hj);
      try done;
      (eexists; split; [reflexivity|]; by vm_compute).
  - intros fuel. unfold decode, decode_from.
    change (start abc_sites "org") with (Ok abc_start). cbv iota beta.
    by rewrite (while_stuck abc_near_values abc_start).
Qed.

(** ** Inputs the model cells do not check *)

Lemma length_bind_pair {A B} (f g : A → B) (l : list A) :
  length (k ← l; [f k; g k]) = (2 * length l)%nat.
Proof. induction l as [|k l IH]; [done|]. rewrite bind_cons, length_app, IH. simpl. lia. Qed.

Lemma length_degree_constraints (sites : list site) (keys : gset edge) :
  length (degree_constraints sites keys) = (2 * length sites)%nat.
Proof. apply length_bind_pair. Qed.

Lemma no_org_infeasible (sites : list site) (xa : edge → Z) (ua : site → Z) :
  NoDup sites → sites ≠ [] → "org" ∉ sites →
  degree_facts sites xa → order_facts sites xa ua → False.
Proof.
  intros Hnd Hne Horg Hdeg Hord.
  destruct sites as [|v sites'] eqn:Hs; [done|]. rewrite <- Hs in *.
  assert (v ∈ sites) as Hv by (rewrite Hs; by left).
  destruct (reaches_org sites xa ua Hdeg Hord v Hv) as (l & Hw & _);
    [by intros ->|].
  apply Horg. apply (walk_in_sites sites xa (v :: l ++ ["org"]) "org" Hw).
  - simpl. rewrite length_app. simpl. lia.
  - right. apply elem_of_app. right. by left.
Qed.

(** C8, as the code has it: the model cells check neither the number of
    sites nor that ['org'] is one of them.  For every list of sites and
    every distance dictionary the model is built, with two degree
    constraints per site followed by the subtour constraints; when the
    sites are distinct, at least one, the dictionary complete and ['org']
    not among them, the model that comes out has no feasible assignment. *)
Theorem build_model_unchecked (sites : list site) (distances : gmap edge Z) :
  ∃ nb, build_model sites distances = Ok nb
        ∧ constraints (nb_prob nb)
          = degree_constraints sites (dom distances) ++ mtz_constraints sites (dom distances)
        ∧ length (degree_constraints sites (dom distances)) = (2 * length sites)%nat
        ∧ (NoDup sites → complete sites distances → sites ≠ [] → "org" ∉ sites →
           ∀ xa ua, ¬ feasible nb (assign xa ua)).
Proof.
  destruct (build_model sites distances) as [nb|] eqn:Hbm;
    [|by rewrite build_model_Ok in Hbm].
  exists nb. split; [done|]. split; [|split].
  - rewrite build_model_Ok in Hbm. by simplify_eq.
  - apply length_degree_constraints.
  - intros Hnd Hc Hne Horg xa ua [Hdeg Hord]%(feasible_iff sites distances Hc _ _ nb Hbm).
    by eapply no_org_infeasible.
Qed.

Lemma ab_sites_NoDup : NoDup ab_sites.
Proof. unfold ab_sites. by repeat (apply NoDup_cons; split; [set_solver|]); apply NoDup_nil. Qed.

Lemma ab_sites_no_org : "org" ∉ ab_sites.
Proof. unfold ab_sites. intros [?|[?|?%elem_of_nil]%elem_of_cons]%elem_of_cons; done. Qed.

Lemma build_model_unchecked_witness :
  ∃ nb, build_model ab_sites (distances_cell ab_sites (λ _ _, 10)) = Ok nb
        ∧ ∀ xa ua, ¬ feasible nb (assign xa ua).
Proof.
  destruct (build_model_unchecked ab_sites (distances_cell ab_sites (λ _ _, 10)))
    as (nb & Hbm & _ & _ & Hinf).
  exists nb. split; [exact Hbm|].
  exact (Hinf ab_sites_NoDup (distances_cell_complete _ _)
           (λ H : ab_sites = [], eq_ind ab_sites (λ l, match l with [] => False | _ => True end)
                                   I [] H)
           ab_sites_no_org).
Defined.

(** Two sites, none of them ['org'], and the model is built. *)
Lemma unchecked_input_counterexample :
  (length ab_sites < 3)%nat ∧ ("org" ∉ ab_sites)
  ∧ ∃ nb, build_model ab_sites (distances_cell ab_sites (λ _ _, 10)) = Ok nb
          ∧ length (constraints (nb_prob nb)) = 6%nat.
Proof.
  split; [simpl; lia|]. split; [exact ab_sites_no_org|].
  rewrite build_model_Ok. eexists. split; [reflexivity|].
  simpl constraints. vm_compute. reflexivity.
Qed.

(** * Further properties of the cells *)

(** ** How many variables and constraints the cells create *)

Lemma length_bind_const {A B} (f : A → list B) (l : list A) (c : nat) :
  (∀ a, a ∈ l → length (f a) = c) → length (l ≫= f) = (length l * c)%nat.
Proof.
  induction l as [|a l IH]; intros Hf; [done|].
  rewrite bind_cons, length_app, IH, Hf; [simpl; lia|by left|].
  intros; apply Hf; by right.
Qed.

Lemma length_bind_but_one `{EqDecision A} {B} (f : A → list B) (l : list A) (o : A) (c : nat) :
  NoDup l → o ∈ l → length (f o) = 0%nat → (∀ a, a ∈ l → a ≠ o → length (f a) = c) →
  length (l ≫= f) = ((length l - 1) * c)%nat.
Proof.
  induction l as [|a l IH]; intros Hnd Ho Hfo Hf; [by apply elem_of_nil in Ho|].
  apply NoDup_cons in Hnd as [Ha Hnd]. rewrite bind_cons, length_app.
  destruct (decide (a = o)) as [->|Hne].
  - rewrite Hfo. simpl. rewrite Nat.sub_0_r. apply length_bind_const.
    intros b Hb. apply Hf; [by right|]. by intros ->.
  - apply elem_of_cons in Ho as [?|Ho]; [done|].
    assert (length (f a) = c) as -> by (apply Hf; [by left|done]).
    assert (length (l ≫= f) = ((length l - 1) * c)%nat) as ->.
    { apply IH; try done. intros; apply Hf; [by right|done]. }
    apply list_elem_of_split in Ho as (l1 & l2 & ->).
    simpl. rewrite !length_app. simpl. nia.
Qed.

Lemma length_bind_if {A B} (P : A → Prop) `{!∀ a, Decision (P a)} (f : A → B) (l : list A) :
  length (a ← l; if decide (P a) then [f a] else []) = length (filter P l).
Proof.
  induction l as [|a l IH]; [done|].
  rewrite bind_cons, length_app, IH, filter_cons. by destruct (decide (P a)).
Qed.

Lemma length_filter_ne (l : list site) (a : site) :
  NoDup l → a ∈ l → length (filter (λ j, j ≠ a) l) = (length l - 1)%nat.
Proof.
  induction l as [|b l IH]; intros Hnd Ha; [by apply elem_of_nil in Ha|].
  apply NoDup_cons in Hnd as [Hb Hnd]. rewrite filter_cons.
  destruct (decide (b = a)) as [->|Hne].
  - rewrite decide_False by (intros H; by apply H).
    simpl. rewrite Nat.sub_0_r. f_equal.
    clear IH Hnd Ha. induction l as [|j l IH]; [done|].
    apply not_elem_of_cons in Hb as [Hja Hb].
    rewrite filter_cons, decide_True by done. f_equal. by apply IH.
  - rewrite decide_True by done. apply elem_of_cons in Ha as [?|Ha]; [done|].
    simpl. rewrite IH by done.
    apply list_elem_of_split in Ha as (l1 & l2 & ->). rewrite length_app. simpl. lia.
Qed.

Lemma pairs_from_NoDup (a : site) (l : list site) :
  NoDup l → NoDup (b ← l; if decide (a ≠ b) then [(a, b)] else []).
Proof.
  intros Hnd. apply NoDup_bind; [| |done].
  - intros b1 b2 e _ _ H1 H2.
    destruct (decide (a ≠ b1)); [|by apply elem_of_nil in H1].
    destruct (decide (a ≠ b2)); [|by apply elem_of_nil in H2].
    apply list_elem_of_singleton in H1, H2. by simplify_eq.
  - intros b _. case_decide; [apply NoDup_singleton|apply NoDup_nil_2].
Qed.

Lemma ordered_pairs_NoDup (sites : list site) : NoDup sites → NoDup (ordered_pairs sites).
Proof.
  intros Hnd. unfold ordered_pairs. apply NoDup_bind; [| |done].
  - intros a1 a2 e _ _ H1 H2.
    apply list_elem_of_bind in H1 as (b1 & H1 & _).
    apply list_elem_of_bind in H2 as (b2 & H2 & _).
    destruct (decide (a1 ≠ b1)); [|by apply elem_of_nil in H1].
    destruct (decide (a2 ≠ b2)); [|by apply elem_of_nil in H2].
    apply list_elem_of_singleton in H1, H2. by simplify_eq.
  - intros a _. by apply pairs_from_NoDup.
Qed.

Lemma length_ordered_pairs (sites : list site) :
  NoDup sites →
  length (ordered_pairs sites) = (length sites * (length sites - 1))%nat.
Proof.
  intros Hnd. unfold ordered_pairs. apply length_bind_const. intros a Ha.
  rewrite (length_bind_if (λ b, a ≠ b) (λ b, (a, b))).
  rewrite <- (length_filter_ne sites a Hnd Ha). f_equal.
  apply filter_iff_in. intros b _. split; intros H ?; by apply H.
Qed.

Lemma dict_size `{Countable K} {V} (f : K → V) (l : list K) :
  NoDup l → size (dict ((λ k, (k, f k)) <$> l)) = length l.
Proof.
  intros Hnd. rewrite <- size_dom, <- (size_list_to_set (C := gset K) l Hnd). f_equal.
  apply set_eq. intros k. rewrite elem_of_dom, dict_lookup, elem_of_list_to_set.
  case_decide; split; try done; try (by eexists); by intros [? ?].
Qed.

Lemma x_size {V} (indices : gmap edge V) lo hi c :
  size (LpVariable_dicts_x indices lo hi c) = size indices.
Proof. by rewrite <- !size_dom, x_dom. Qed.

(** X1: for distinct sites the distance cell creates [N*(N-1)] entries,
    one per ordered pair of distinct sites and none for a pair [(i,i)],
    and [x] holds as many variables, each binary with bounds 0 and 1. *)
Theorem variables_count (sites : list site) (d : site → site → Z) :
  NoDup sites →
  let distances := distances_cell sites d in
  let x := LpVariable_dicts_x distances 0 1 LpBinary in
  size distances = (length sites * (length sites - 1))%nat
  ∧ size x = (length sites * (length sites - 1))%nat
  ∧ (∀ i, distances !! (i, i) = None ∧ x !! (i, i) = None)
  ∧ (∀ e v, x !! e = Some v → v = mkLpVariable (X e) 0 1 LpBinary).
Proof.
  intros Hnd distances x.
  assert (size distances = (length sites * (length sites - 1))%nat) as Hsize.
  { subst distances. rewrite distances_cell_pairs, dict_size.
    - by apply length_ordered_pairs.
    - by apply ordered_pairs_NoDup. }
  split; [done|]. split; [subst x; by rewrite x_size|]. split.
  - intros i.
    assert (distances !! (i, i) = None) as Hd.
    { subst distances. rewrite distances_cell_lookup. rewrite decide_False; [done|].
      by intros (_ & _ & ?). }
    split; [done|]. subst x. by rewrite x_lookup, Hd.
  - intros e v Hv. subst x. rewrite x_lookup in Hv.
    destruct (distances !! e); simpl in Hv; congruence.
Qed.

Lemma variables_count_witness :
  size (distances_cell abcd_sites (λ _ _, 10)) = 12%nat.
Proof.
  exact (proj1 (variables_count abcd_sites (λ _ _, 10) abcd_sites_NoDup)).
Defined.

Lemma length_filter_ne2 (l : list site) (a b : site) :
  NoDup l → a ∈ l → b ∈ l → a ≠ b →
  length (filter (λ j, j ≠ a ∧ j ≠ b) l) = (length l - 2)%nat.
Proof.
  intros Hnd Ha Hb Hne.
  rewrite <- (list_filter_filter (λ j, j ≠ a) (λ j, j ≠ b)).
  rewrite length_filter_ne.
  - rewrite length_filter_ne by done. lia.
  - by apply NoDup_filter.
  - apply list_elem_of_filter. by split.
Qed.

Lemma length_mtz_constraints (sites : list site) (distances : gmap edge Z) :
  NoDup sites → "org" ∈ sites → complete sites distances →
  length (mtz_constraints sites (dom distances))
  = ((length sites - 1) * (length sites - 2))%nat.
Proof.
  intros Hnd Horg Hc. rewrite mtz_constraints_complete by done. cbv zeta.
  apply (length_bind_but_one _ sites "org"); [done|done| |].
  - rewrite (length_bind_if (λ j, "org" ≠ j ∧ "org" ≠ "org" ∧ j ≠ "org")).
    rewrite (filter_iff_in _ (λ _, False)); [|intros j _; split; [intros (_ & H & _); by apply H|done]].
    clear. induction sites as [|a l IH]; [done|]. rewrite filter_cons. by case_decide.
  - intros i Hi Hio.
    rewrite (length_bind_if (λ j, i ≠ j ∧ i ≠ "org" ∧ j ≠ "org")).
    rewrite <- (length_filter_ne2 sites i "org") by done. f_equal.
    apply filter_iff_in. intros j _. split.
    + intros (? & _ & ?). split; [by apply not_eq_sym|done].
    + intros [? ?]. split; [by apply not_eq_sym|done].
Qed.

Lemma length_mtz_constraints_no_org (sites : list site) (distances : gmap edge Z) :
  NoDup sites → ("org" ∉ sites) → complete sites distances →
  length (mtz_constraints sites (dom distances))
  = (length sites * (length sites - 1))%nat.
Proof.
  intros Hnd Horg Hc. rewrite mtz_constraints_complete by done. cbv zeta.
  apply length_bind_const. intros i Hi.
  rewrite (length_bind_if (λ j, i ≠ j ∧ i ≠ "org" ∧ j ≠ "org")).
  rewrite <- (length_filter_ne sites i) by done. f_equal.
  apply filter_iff_in. intros j Hj. split.
  - intros (? & _ & _). by apply not_eq_sym.
  - intros ?. split; [by apply not_eq_sym|]. split; by intros ->.
Qed.

(** X2: for distinct sites and a complete distance dictionary the model
    cells add [2*N + (N-1)*(N-2)] constraints when ['org'] is one of the
    sites, the degree constraints first; when it is not, no pair is
    exempt and they add [2*N + N*(N-1)]. *)
Theorem constraints_count (sites : list site) (distances : gmap edge Z) (nb : notebook) :
  NoDup sites → complete sites distances → build_model sites distances = Ok nb →
  ("org" ∈ sites →
     length (constraints (nb_prob nb))
     = (2 * length sites + (length sites - 1) * (length sites - 2))%nat)
  ∧ ("org" ∉ sites →
     length (constraints (nb_prob nb))
     = (2 * length sites + length sites * (length sites - 1))%nat).
Proof.
  intros Hnd Hc Hbm. rewrite build_model_Ok in Hbm. injection Hbm as <-.
  cbn [nb_prob constraints]. rewrite length_app, length_degree_constraints. split.
  - intros Horg. by rewrite length_mtz_constraints.
  - intros Horg. by rewrite length_mtz_constraints_no_org.
Qed.

Lemma constraints_count_witness :
  ∃ nb, build_model abcd_sites (distances_cell abcd_sites (λ _ _, 10)) = Ok nb
        ∧ length (constraints (nb_prob nb)) = 14%nat.
Proof.
  destruct (build_model abcd_sites (distances_cell abcd_sites (λ _ _, 10)))
    as [nb|] eqn:Hbm; [|by rewrite build_model_Ok in Hbm].
  exists nb. split; [reflexivity|].
  exact (proj1 (constraints_count abcd_sites _ nb abcd_sites_NoDup
                  (distances_cell_complete _ _) Hbm)
           ltac:(by left)).
Defined.

(** ** The objective at a decoded solution *)

Lemma sum_app (l k : list Z) : sum (l ++ k) = sum l + sum k.
Proof. unfold sum. induction l as [|a l IH]; simpl; [done|]. rewrite IH. lia. Qed.

Lemma sum_Permutation (l k : list Z) : l ≡ₚ k → sum l = sum k.
Proof.
  unfold sum. induction 1 as [|a l k _ IH|a b l|l1 l2 l3 _ IH1 _ IH2]; simpl; lia.
Qed.

Lemma value_objective (distances : gmap edge Z) (a : VarId → Z) :
  value a (lpSum (objective_terms distances))
  = sum ((λ ed, a (X ed.1) * ed.2) <$> map_to_list distances).
Proof.
  rewrite value_lpSum. unfold objective_terms. by rewrite <- list_fmap_compose.
Qed.

Lemma Forall2_lookup_delete (m : gmap edge Z) (e : edge) (L : list edge) (ds : list Z) :
  e ∉ L → Forall2 (λ e' d, m !! e' = Some d) L ds →
  Forall2 (λ e' d, delete e m !! e' = Some d) L ds.
Proof.
  intros He Hall. induction Hall as [|e' d L ds Hed _ IH]; [constructor|].
  apply not_elem_of_cons in He as [Hne He].
  constructor; [by rewrite lookup_delete_ne|by apply IH].
Qed.

(** Weighing the entries of a dictionary by an assignment that selects
    the distinct keys [L] adds up the entries at those keys. *)
Lemma sum_selected_entries (g : edge → Z) (L : list edge) :
  ∀ (m : gmap edge Z) (ds : list Z),
    NoDup L → Forall2 (λ e d, m !! e = Some d) L ds →
    (∀ e, e ∈ dom m → g e = indicator L e) →
    sum ((λ ed, g ed.1 * ed.2) <$> map_to_list m) = sum ds.
Proof.
  induction L as [|e L IH]; intros m ds Hnd Hall Hg.
  - apply Forall2_nil_inv_l in Hall as ->.
    apply (sum_all_zero (λ ed, g ed.1 * ed.2)). intros [e d] Hed.
    apply elem_of_map_to_list in Hed. simpl.
    rewrite Hg by (apply elem_of_dom; by eexists). unfold indicator.
    rewrite decide_False; [lia|apply not_elem_of_nil].
  - apply Forall2_cons_inv_l in Hall as (d & ds' & He & Hall & ->).
    apply NoDup_cons in Hnd as [HeL Hnd].
    rewrite <- (sum_Permutation _ _
                 (fmap_Permutation (λ ed, g ed.1 * ed.2) _ _ (map_to_list_delete m e d He))).
    rewrite fmap_cons.
    change (sum (?a :: ?l)) with (a + sum l).
    rewrite (IH (delete e m) ds' Hnd (Forall2_lookup_delete m e L ds' HeL Hall)).
    + simpl. rewrite Hg by (apply elem_of_dom; by eexists). unfold indicator.
      rewrite decide_True by left. lia.
    + intros e' He'. apply elem_of_dom in He' as [d' Hd'].
      destruct (decide (e = e')) as [->|Hne]; [by rewrite lookup_delete_eq in Hd'|].
      rewrite lookup_delete_ne in Hd' by done.
      rewrite Hg by (apply elem_of_dom; by eexists). unfold indicator.
      destruct (decide (e' ∈ L)) as [Hin|Hout].
      * rewrite decide_True; [done|by right].
      * rewrite decide_False; [done|]. intros [?|?]%elem_of_cons; congruence.
Qed.

Lemma feasible_needs_two_sites (sites : list site) (xa : edge → Z) :
  degree_facts sites xa → "org" ∈ sites →
  ∀ rest, "org" :: rest ≡ₚ sites → rest ≠ [].
Proof.
  intros Hdeg Horg rest Hperm.
  destruct (successor sites xa Hdeg "org" Horg) as (s & (_ & Hs & Hne & _) & _).
  rewrite <- Hperm in Hs. apply elem_of_cons in Hs as [?|Hs]; [congruence|].
  intros ->. by apply elem_of_nil in Hs.
Qed.

(** X3: at a feasible solution read back by the solver's values, the
    total that the last cell reports for the decoded tour is the value of
    the model's objective. *)
Theorem objective_is_reported_total (sites : list site) (distances : gmap edge Z)
    (nb : notebook) (xa : edge → Z) (ua : site → Z) (xv : gmap edge Q) (fuel : nat) :
  NoDup sites → "org" ∈ sites → complete sites distances →
  build_model sites distances = Ok nb → feasible nb (assign xa ua) →
  reads xv distances xa → (length sites ≤ fuel)%nat →
  ∃ t cost obj,
    decode sites xv distances fuel = Some (Ok (t, cost))
    ∧ objective (nb_prob nb) = Some obj
    ∧ value (assign xa ua) obj = cost.
Proof.
  intros Hnd Horg Hc Hbm [Hdeg Hord]%(feasible_iff sites distances Hc _ _ nb Hbm)
    Hreads Hfuel.
  destruct (feasible_tour sites xa ua Hnd Hdeg Hord Horg) as (rest & Hperm & Hwalk).
  pose proof (feasible_encodes sites xa Hdeg rest Hperm Hwalk) as Henc.
  pose proof (feasible_needs_two_sites sites xa Hdeg Horg rest Hperm) as Hrest.
  destruct (decode_tour sites rest distances xa xv Hnd Hc Hperm Henc Hreads fuel
              Hrest Hfuel) as (legs & Hdec & Hall).
  exists (closed ("org" :: rest)), (sum legs), (lpSum (objective_terms distances)).
  split; [done|]. split.
  { rewrite build_model_Ok in Hbm. by injection Hbm as <-. }
  rewrite value_objective.
  apply (sum_selected_entries (λ e, assign xa ua (X e)) (legs_of (closed ("org" :: rest))));
    [|done|].
  - assert (NoDup ("org" :: rest)) as Hndc by by rewrite Hperm.
    apply (NoDup_fmap_1 fst).
    rewrite (cover_fst _ _ (cycle_cover ("org" :: rest) Hndc
               ltac:(destruct rest; [done|simpl; lia]))).
    done.
  - intros [i j] (Hi & Hj & Hne)%Hc. simpl. by apply Henc.
Qed.

Lemma objective_is_reported_total_witness :
  ∃ t cost, decode abc_sites abc_tour_values abc_distances 3 = Some (Ok (t, cost)).
Proof.
  destruct (build_model abc_sites abc_distances) as [nb|] eqn:Hbm;
    [|by rewrite build_model_Ok in Hbm].
  destruct (objective_is_reported_total abc_sites abc_distances nb abc_tour
              (rank abc_sites) abc_tour_values 3 abc_sites_NoDup ltac:(by left)
              (distances_cell_complete _ _) Hbm (abc_tour_feasible nb Hbm)
              abc_tour_reads ltac:(simpl; lia))
    as (t & cost & obj & Hdec & _).
  exists t, cost. exact Hdec.
Defined.

(** ** Errors of the tour cell *)

(** X4: when the starting label is not among the sites, the tour cell
    raises [ValueError] at its first [index] call, before the loop, for
    any solver values; so the notebook's cell fails this way on any site
    list without ['org'], the empty one included. *)
Theorem decode_without_origin (org0 : site) (sites : list site) (xv : gmap edge Q)
    (distances : gmap edge Z) (fuel : nat) :
  org0 ∉ sites →
  start sites org0 = Raise ValueError
  ∧ decode_from org0 sites xv distances fuel = Some (Raise ValueError).
Proof.
  intros Hout.
  assert (start sites org0 = Raise ValueError) as Hs.
  { unfold start, move. simpl. by rewrite list_index_not_in. }
  split; [done|]. unfold decode_from. by rewrite Hs.
Qed.

Lemma decode_without_origin_witness :
  decode ab_sites abc_ones abc_distances 0 = Some (Raise ValueError).
Proof.
  exact (proj2 (decode_without_origin "org" ab_sites abc_ones abc_distances 0
                  ab_sites_no_org)).
Defined.

Lemma for_k_missing_key xv st k q :
  xv !! (org st, k) = None → for_k xv st (k :: q) = Raise KeyError.
Proof. intros Hk. simpl. unfold getitem. by rewrite Hk. Qed.

(** X5: when the edge from the current site to a site of [sites_left] has
    no variable in [x], and no earlier site of [sites_left] has edge value
    1, the pass raises [KeyError] and so does the loop; an earlier site
    with edge value 1 hides the missing key. *)
Theorem missing_edge_raises (xv : gmap edge Q) (st : decoder) (l1 l2 : list site)
    (k : site) (fuel : nat) :
  sites_left st = l1 ++ k :: l2 → misses xv (org st) l1 →
  xv !! (org st, k) = None →
  body xv st = Raise KeyError ∧ while xv (S fuel) st = Some (Raise KeyError).
Proof.
  intros Hl Hm Hk.
  assert (body xv st = Raise KeyError) as Hb.
  { unfold body. rewrite Hl, for_k_skip by done. by apply for_k_missing_key. }
  split; [done|]. simpl. rewrite decide_True, Hb; [done|].
  rewrite Hl, length_app. simpl. lia.
Qed.

Lemma missing_edge_raises_witness :
  while (delete ("org", "A") abc_tour_values) 1 abc_start = Some (Raise KeyError).
Proof.
  refine (proj2 (missing_edge_raises (delete ("org", "A") abc_tour_values) abc_start
                   [] ["B"] "A" 0 eq_refl _ eq_refl)).
  intros k Hk. by apply elem_of_nil in Hk.
Defined.

(** ** How long the loop can run *)

Lemma while_decided xv n :
  ∀ st fuel, (length (sites_left st) ≤ n)%nat → (n < fuel)%nat →
             while xv fuel st = while xv (S n) st.
Proof.
  induction n as [|n IH]; intros st fuel Hlen Hfuel.
  - destruct fuel as [|fuel]; [lia|]. simpl.
    rewrite !decide_False by lia. done.
  - destruct fuel as [|fuel]; [lia|].
    change (while xv (S fuel) st) with
      (if decide (0 < length (sites_left st))%nat then
         match body xv st with
         | Ok st' => while xv fuel st'
         | Raise e => Some (Raise e)
         end
       else Some (Ok st)).
    change (while xv (S (S n)) st) with
      (if decide (0 < length (sites_left st))%nat then
         match body xv st with
         | Ok st' => while xv (S n) st'
         | Raise e => Some (Raise e)
         end
       else Some (Ok st)).
    case_decide as Hpos; [|done].
    destruct (body xv st) as [st'|e] eqn:Hb; [|done].
    apply body_inv in Hb as Hcases.
    destruct Hcases as [->|(l1 & k & l2 & v & Hl & _ & _ & _ & ->)].
    + assert (sites_left st ≠ []) as Hne by (intros H; rewrite H in Hpos; simpl in Hpos; lia).
      by rewrite !(while_stuck xv st Hne Hb).
    + apply IH; [|lia]. simpl. rewrite Hl, length_app in Hlen.
      rewrite length_app. simpl in *. lia.
Qed.

(** X6: the loop ends within [N] tests of its condition or never.  For
    every fuel of at least [N], the number of sites, the cell gives what
    it gives with fuel [N]: the same tour and total, the same exception,
    or no result at all. *)
Theorem decode_decided_in_N (org0 : site) (sites : list site) (xv : gmap edge Q)
    (distances : gmap edge Z) (fuel : nat) :
  (length sites ≤ fuel)%nat →
  decode_from org0 sites xv distances fuel
  = decode_from org0 sites xv distances (length sites).
Proof.
  intros Hfuel. unfold decode_from.
  destruct (start sites org0) as [st|e] eqn:Hs; [|done].
  apply start_Ok in Hs as (l1 & l2 & -> & _ & ->).
  rewrite length_app in Hfuel |- *. simpl in Hfuel |- *.
  replace (length l1 + S (length l2))%nat with (S (length (l1 ++ l2)))
    by (rewrite length_app; lia).
  destruct (decide (fuel = S (length (l1 ++ l2)))) as [->|Hne]; [done|].
  rewrite (while_decided xv (length (l1 ++ l2)) _ fuel); [done|done|].
  rewrite length_app. lia.
Qed.

Lemma decode_decided_in_N_witness :
  decode abc_sites abc_zeros abc_distances 7 = decode abc_sites abc_zeros abc_distances 3.
Proof.
  exact (decode_decided_in_N "org" abc_sites abc_zeros abc_distances 7 ltac:(simpl; lia)).
Defined.

(** ** What a returned tour guarantees, whatever the solver's values *)

Lemma legs_of_snoc (t : list site) (a k : site) :
  last t = Some a → legs_of (t ++ [k]) = legs_of t ++ [(a, k)].
Proof.
  induction t as [|b t IH]; intros Hlast; [done|].
  destruct t as [|c t].
  - simpl in Hlast. by simplify_eq.
  - change ((b :: c :: t) ++ [k]) with (b :: c :: (t ++ [k])).
    rewrite !legs_of_cons2. simpl. f_equal. apply IH. by rewrite last_cons_cons in Hlast.
Qed.

Lemma body_follows_ones xv st st' :
  follows_ones xv st → body xv st = Ok st' → follows_ones xv st'.
Proof.
  intros [Hlast Hlegs] Hb.
  apply body_inv in Hb as [->|(l1 & k & l2 & v & _ & _ & Hv & Hone & ->)]; [by split|].
  split; simpl.
  - apply last_snoc.
  - rewrite (legs_of_snoc _ (org st) k Hlast).
    intros e [He|He%list_elem_of_singleton]%elem_of_app; [by apply Hlegs|].
    subst e. by exists v.
Qed.

Lemma comprehension_getitem_inv (distances : gmap edge Z) (l : list edge) (ds : list Z) :
  comprehension (getitem distances) l = Ok ds →
  Forall2 (λ e d, distances !! e = Some d) l ds.
Proof.
  revert ds. induction l as [|e l IH]; intros ds Hc; simpl in Hc.
  - injection Hc as <-. constructor.
  - destruct (distances !! e) as [d|] eqn:Hd;
      [rewrite (getitem_Some _ _ _ Hd) in Hc|unfold getitem in Hc; by rewrite Hd in Hc].
    simpl in Hc. destruct (comprehension (getitem distances) l) as [ds'|]; [|by simpl in Hc].
    simpl in Hc. injection Hc as <-. constructor; [done|by apply IH].
Qed.

(** X7: whatever the solver's values, a sequence that the cell returns is
    the starting site, then every other site exactly once in some order,
    then ['org']; every consecutive pair before the closing ['org'] is an
    edge whose value is exactly 1 (the closing pair is not looked at); and
    the total is the sum of the distances of all consecutive pairs. *)
Theorem returned_tour_sound (org0 : site) (sites : list site) (xv : gmap edge Q)
    (distances : gmap edge Z) (fuel : nat) (t : list site) (cost : Z) :
  decode_from org0 sites xv distances fuel = Some (Ok (t, cost)) →
  ∃ rest legs,
    t = org0 :: rest ++ ["org"]
    ∧ org0 :: rest ≡ₚ sites
    ∧ (∀ e, e ∈ legs_of (org0 :: rest) → ∃ v, xv !! e = Some v ∧ (v == 1)%Q)
    ∧ Forall2 (λ e d, distances !! e = Some d) (legs_of t) legs
    ∧ cost = sum legs.
Proof.
  intros (st0 & st & legs & Hs & Hw & -> & Hlegs & ->)%decode_from_Ok.
  pose proof (start_partition _ _ _ Hs) as Hp0.
  apply start_Ok in Hs as (l1 & l2 & Hsites & _ & ->).
  apply (while_invariant
           (λ st, partition sites st ∧ follows_ones xv st ∧ head (tour st) = Some org0) xv)
    in Hw as [(Hp & [_ Hones] & Hhead) Hnil].
  - destruct (tour st) as [|o rest] eqn:Ht; [done|]. simpl in Hhead. simplify_eq.
    exists rest, legs. split; [done|].
    unfold partition in Hp. rewrite Ht, Hnil, app_nil_r in Hp.
    split; [done|]. split; [done|]. split; [|done].
    apply comprehension_getitem_inv. by rewrite <- tour_legs_pairs.
  - intros s s' (Hp & Hf & Hh) Hb. split; [by eapply body_partition|].
    split; [by eapply body_follows_ones|by eapply body_head].
  - split; [done|]. split; [|done]. split; [done|].
    intros e He. by apply elem_of_nil in He.
Qed.

Lemma returned_tour_sound_witness :
  decode abc_sites abc_open_values abc_distances 3
  = Some (Ok (["org"; "A"; "B"; "org"], 30))
  ∧ abc_open_values !! ("B", "org") = Some 0%Q
  ∧ ∃ rest, "org" :: rest ≡ₚ abc_sites.
Proof.
  split; [reflexivity|]. split; [reflexivity|].
  destruct (returned_tour_sound "org" abc_sites abc_open_values abc_distances 3
              ["org"; "A"; "B"; "org"] 30 eq_refl)
    as (rest & legs & _ & Hperm & _).
  by exists rest.
Defined.

(** ** The order variables at a feasible solution *)

Lemma legs_of_rest_closed (o : site) (rest : list site) (a b : site) :
  (a, b) ∈ legs_of rest → (a, b) ∈ legs_of (closed (o :: rest)).
Proof.
  rewrite !elem_of_legs_of. intros (i & Ha & Hb). exists (S i).
  rewrite closed_cons. simpl.
  pose proof (lookup_lt_Some _ _ _ Ha). pose proof (lookup_lt_Some _ _ _ Hb).
  by rewrite !lookup_app_l by done.
Qed.

(** X8: at a feasible solution the order variables of the sites other
    than ['org'] grow strictly along the tour: a site visited earlier has
    the smaller [u]. *)
Theorem order_follows_tour (sites : list site) (distances : gmap edge Z)
    (nb : notebook) (xa : edge → Z) (ua : site → Z) :
  NoDup sites → "org" ∈ sites → complete sites distances →
  build_model sites distances = Ok nb → feasible nb (assign xa ua) →
  ∃ rest, "org" :: rest ≡ₚ sites ∧ encodes sites ("org" :: rest) xa
          ∧ ∀ i j a b, rest !! i = Some a → rest !! j = Some b → (i < j)%nat →
                       ua a < ua b.
Proof.
  intros Hnd Horg Hc Hbm [Hdeg Hord]%(feasible_iff sites distances Hc _ _ nb Hbm).
  destruct (feasible_tour sites xa ua Hnd Hdeg Hord Horg) as (rest & Hperm & Hwalk).
  exists rest. split; [done|]. split; [by apply feasible_encodes|].
  assert (NoDup ("org" :: rest)) as [Horest _]%NoDup_cons by by rewrite Hperm.
  intros i j a b Ha Hb Hlt. apply (increasing_walk ua rest) with (j := j) (i := i); try done.
  intros a' b' Hleg.
  assert (a' ≠ "org" ∧ b' ≠ "org") as [Ha' Hb'].
  { apply elem_of_legs_of in Hleg as (n & Hn & Hn').
    split; intros ->; apply Horest; by eapply list_elem_of_lookup_2. }
  pose proof (order_grows sites xa ua Hord a' b'
                (Hwalk a' b' (legs_of_rest_closed "org" rest a' b' Hleg)) Ha' Hb').
  lia.
Qed.

Lemma order_follows_tour_witness :
  ∃ rest, "org" :: rest ≡ₚ abc_sites
          ∧ ∀ i j a b, rest !! i = Some a → rest !! j = Some b → (i < j)%nat →
                       rank abc_sites a < rank abc_sites b.
Proof.
  destruct (build_model abc_sites abc_distances) as [nb|] eqn:Hbm;
    [|by rewrite build_model_Ok in Hbm].
  destruct (order_follows_tour abc_sites abc_distances nb abc_tour (rank abc_sites)
              abc_sites_NoDup ltac:(by left) (distances_cell_complete _ _) Hbm
              (abc_tour_feasible nb Hbm))
    as (rest & Hperm & _ & Hinc).
  exists rest. split; [exact Hperm|exact Hinc].
Defined.

(** ** A site label listed twice *)

Lemma not_NoDup_split (l : list site) :
  ¬ NoDup l → ∃ a l1 l2 l3, l = l1 ++ a :: l2 ++ a :: l3.
Proof.
  induction l as [|b l IH]; intros Hnd; [destruct Hnd; apply NoDup_nil_2|].
  destruct (decide (b ∈ l)) as [Hin|Hout].
  - apply list_elem_of_split in Hin as (l2 & l3 & ->). by exists b, [], l2, l3.
  - destruct IH as (a & l1 & l2 & l3 & ->).
    + intros Hl. apply Hnd. by apply NoDup_cons.
    + by exists a, (b :: l1), l2, l3.
Qed.

Lemma repeated_site_degree (sites : list site) (xa : edge → Z) (a : site)
    (l1 l2 l3 : list site) :
  sites = l1 ++ a :: l2 ++ a :: l3 → degree_facts sites xa → False.
Proof.
  intros Hs [Hb Hi Ho].
  assert (a ∈ sites) as Ha by (rewrite Hs; apply elem_of_app; right; by left).
  destruct (sum_one_unique (λ i, xa (a, i)) (filter (λ i, i ≠ a) sites))
    as (j & [Hja Hj]%list_elem_of_filter & Hone & _).
  { intros i [Hne Hin]%list_elem_of_filter. by apply Hb. }
  { by apply Ho. }
  pose proof (Hi j Hj) as Hin. rewrite Hs in Hin.
  rewrite !filter_app, !filter_cons, !decide_True in Hin by by apply not_eq_sym.
  rewrite filter_app, filter_cons, decide_True in Hin by by apply not_eq_sym.
  rewrite !fmap_app, !fmap_cons, !fmap_app, !fmap_cons in Hin.
  rewrite sum_app in Hin. change (sum (?x :: ?l)) with (x + sum l) in Hin.
  rewrite sum_app in Hin. change (sum (?x :: ?l)) with (x + sum l) in Hin.
  assert (∀ l, (∀ i, i ∈ l → i ∈ sites) →
               0 ≤ sum ((λ i, xa (i, j)) <$> filter (λ i, i ≠ j) l)) as Hpos.
  { intros l Hl. apply sum_nonneg. intros i [Hne Hil]%list_elem_of_filter.
    apply Hb; [by apply Hl|done|done]. }
  pose proof (Hpos l1) as H1. pose proof (Hpos l2) as H2. pose proof (Hpos l3) as H3.
  rewrite Hs in H1, H2, H3.
  specialize (H1 ltac:(intros; apply elem_of_app; by left)).
  specialize (H2 ltac:(intros; apply elem_of_app; right; right; apply elem_of_app; by left)).
  specialize (H3 ltac:(intros; apply elem_of_app; right; right; apply elem_of_app; right;
                       by right)).
  lia.
Qed.

(** X9: the site labels must be distinct.  When a label is listed twice
    the cells still build the model, but the degree sums count the edges
    of that site twice, and neither the model before the subtour loop nor
    the assembled model has a feasible assignment. *)
Theorem repeated_site_infeasible (sites : list site) (distances : gmap edge Z) :
  complete sites distances → ¬ NoDup sites →
  ∃ dnb nb, degree_model sites distances = Ok dnb
            ∧ build_model sites distances = Ok nb
            ∧ (∀ xa ua, ¬ feasible dnb (assign xa ua))
            ∧ (∀ xa ua, ¬ feasible nb (assign xa ua)).
Proof.
  intros Hc (a & l1 & l2 & l3 & Hs)%not_NoDup_split.
  destruct (degree_model sites distances) as [dnb|] eqn:Hdm;
    [|by rewrite degree_model_Ok in Hdm].
  destruct (build_model sites distances) as [nb|] eqn:Hbm;
    [|by rewrite build_model_Ok in Hbm].
  exists dnb, nb. split; [done|]. split; [done|]. split.
  - intros xa ua Hdeg%(degree_feasible_iff sites distances Hc _ _ dnb Hdm).
    by eapply repeated_site_degree.
  - intros xa ua [Hdeg _]%(feasible_iff sites distances Hc _ _ nb Hbm).
    by eapply repeated_site_degree.
Qed.

Lemma aa_sites_dup : ¬ NoDup aa_sites.
Proof.
  unfold aa_sites. intros [_ [HA _]%NoDup_cons]%NoDup_cons. apply HA. by left.
Qed.

Lemma repeated_site_infeasible_witness :
  ∃ nb, build_model aa_sites (distances_cell aa_sites (λ _ _, 10)) = Ok nb
        ∧ ∀ xa ua, ¬ feasible nb (assign xa ua).
Proof.
  destruct (repeated_site_infeasible aa_sites (distances_cell aa_sites (λ _ _, 10))
              (distances_cell_complete _ _) aa_sites_dup)
    as (dnb & nb & _ & Hbm & _ & Hinf).
  exists nb. split; [exact Hbm|exact Hinf].
Defined.

(** ** How few sites the model accepts *)

(** X10: for distinct sites with ['org'] among them and a complete
    distance dictionary, the assembled model has a feasible assignment
    exactly when there are at least two sites: one site alone leaves the
    degree sums empty, while two sites give the tour there and back. *)
Theorem feasible_from_two_sites (sites : list site) (distances : gmap edge Z)
    (nb : notebook) :
  NoDup sites → "org" ∈ sites → complete sites distances →
  build_model sites distances = Ok nb →
  (∃ xa ua, feasible nb (assign xa ua)) ↔ (2 ≤ length sites)%nat.
Proof.
  intros Hnd Horg Hc Hbm.
  pose proof Horg as (l1 & l2 & Hs)%list_elem_of_split.
  assert ("org" :: (l1 ++ l2) ≡ₚ sites) as Hperm by by rewrite Hs, Permutation_middle.
  split.
  - intros (xa & ua & [Hdeg _]%(feasible_iff sites distances Hc _ _ nb Hbm)).
    pose proof (feasible_needs_two_sites sites xa Hdeg Horg _ Hperm) as Hne.
    rewrite <- Hperm. simpl. destruct (l1 ++ l2); [done|simpl; lia].
  - intros Hlen.
    exists (indicator (legs_of (closed ("org" :: l1 ++ l2)))), (rank ("org" :: l1 ++ l2)).
    apply (feasible_iff sites distances Hc _ _ nb Hbm). split.
    + apply (tour_degree_facts sites (l1 ++ l2)); [done|done|done|by intros ???].
    + apply (tour_order_facts sites (l1 ++ l2)); [done|done|done|by intros ???].
Qed.

Lemma feasible_from_two_sites_witness :
  ∃ nb xa ua, build_model ["org"; "A"] (distances_cell ["org"; "A"] (λ _ _, 10)) = Ok nb
              ∧ feasible nb (assign xa ua).
Proof.
  destruct (build_model ["org"; "A"] (distances_cell ["org"; "A"] (λ _ _, 10)))
    as [nb|] eqn:Hbm; [|by rewrite build_model_Ok in Hbm].
  destruct (proj2 (feasible_from_two_sites ["org"; "A"] _ nb
                     ltac:(apply NoDup_cons; split;
                           [by intros ?%list_elem_of_singleton|apply NoDup_singleton])
                     ltac:(by left) (distances_cell_complete _ _) Hbm)
                  ltac:(simpl; lia))
    as (xa & ua & Hf).
  exists nb, xa, ua. split; [reflexivity|exact Hf].
Defined.

(** ** Decoding a solution that has a subtour *)

Lemma inject_Z_not_one (z : Z) : z ≠ 1 → ¬ (inject_Z z == 1)%Q.
Proof. intros Hz Heq. unfold Qeq in Heq. simpl in Heq. lia. Qed.

Lemma closing_leg (rest donep : list site) (cur : site) :
  "org" :: rest = donep ++ [cur] → (cur, "org") ∈ legs_of (closed ("org" :: rest)).
Proof.
  intros Hc. apply elem_of_legs_closed. exists (length donep). rewrite Hc.
  split; [by rewrite list_lookup_middle|]. right.
  split; [rewrite length_app; simpl; lia|]. by rewrite <- Hc.
Qed.

Section SubtourHangs.
Context (sites rest : list site) (distances : gmap edge Z).
Context (xa : edge → Z) (xv : gmap edge Q).
Context (Hcomplete : complete sites distances).
Context (Hdeg : degree_facts sites xa).
Context (Hcycle : cycle_in xa ("org" :: rest)).
Context (Hsub : ∀ s, s ∈ "org" :: rest → s ∈ sites).
Context (Hreads : reads xv distances xa).

Let c := "org" :: rest.

(** An edge from a site of the cycle to any site but its successor on
    the cycle has a value, and the value is not 1. *)
Lemma off_cycle_miss cur next k :
  (cur, next) ∈ legs_of (closed c) → k ∈ sites → k ≠ next → k ≠ cur →
  ∃ v, xv !! (cur, k) = Some v ∧ ¬ (v == 1)%Q.
Proof.
  intros Hleg Hk Hnext Hcur.
  destruct Hcycle as (Hlen & Hndc & Hone).
  pose proof (cover_irrefl _ _ (cycle_cover c Hndc Hlen) cur next Hleg) as Hne.
  assert (cur ∈ c ∧ next ∈ c) as [Hcc Hnc].
  { apply elem_of_legs_closed in Hleg as (i & Ha & Hb).
    split; [by eapply list_elem_of_lookup_2|].
    destruct Hb as [[_ Hb]|[_ Hb]]; by eapply list_elem_of_lookup_2. }
  exists (inject_Z (xa (cur, k))). split.
  - apply Hreads, Hcomplete. split; [by apply Hsub|]. split; [done|by apply not_eq_sym].
  - apply inject_Z_not_one. intros Hx. apply Hnext.
    apply (selected_out_unique sites xa Hdeg cur).
    + split; [by apply Hsub|]. split; [done|]. split; [by apply not_eq_sym|done].
    + split; [by apply Hsub|]. split; [by apply Hsub|]. split; [done|by apply Hone].
Qed.

Lemma hang_follow todo :
  ∀ donep cur sl fuel,
    c = donep ++ cur :: todo → NoDup sl →
    (∀ k, k ∈ sl ↔ k ∈ todo ∨ (k ∈ sites ∧ k ∉ c)) →
    (∃ m, m ∈ sites ∧ m ∉ c) →
    while xv fuel {| sites_left := sl; org := cur; tour := donep ++ [cur] |} = None.
Proof.
  destruct Hcycle as (Hlen & Hndc & Hone).
  induction todo as [|k todo IH]; intros donep cur sl fuel Hc Hndsl Hsl (m & Hm & Hmc).
  - apply while_stuck.
    + simpl. intros ->. assert (m ∈ []) as Hin by (apply Hsl; by right).
      by apply elem_of_nil in Hin.
    + apply for_k_none. intros k' Hk'. simpl in Hk' |- *.
      apply Hsl in Hk' as [Hk'|[Hk's Hk'c]]; [by apply elem_of_nil in Hk'|].
      apply (off_cycle_miss cur "org"); [by apply (closing_leg rest donep cur)|done| |].
      * intros ->. apply Hk'c. by left.
      * intros ->. apply Hk'c. fold c. rewrite Hc. apply elem_of_app. right. by left.
  - destruct fuel as [|fuel]; [done|].
    assert (k ∈ sl) as (l1 & l2 & -> & Hk1)%list_elem_of_split_l
      by (apply Hsl; left; by left).
    pose proof (next_leg rest donep cur k todo Hc) as Hleg.
    assert (cur ≠ k ∧ (k ∉ todo) ∧ (cur ∉ todo)) as (Hck & Hkt & Hct).
    { fold c in Hndc. rewrite Hc in Hndc.
      apply NoDup_app in Hndc as (_ & _ & [Hcur [Hk Hnd']%NoDup_cons]%NoDup_cons).
      split; [intros ->; apply Hcur; by left|]. split; [done|].
      intros ?. apply Hcur. by right. }
    assert (body xv {| sites_left := l1 ++ k :: l2; org := cur; tour := donep ++ [cur] |}
            = Ok (advance {| sites_left := l1 ++ k :: l2; org := cur;
                             tour := donep ++ [cur] |} k (l1 ++ l2))) as Hbody.
    { apply (body_first_hit _ _ l1 k l2 (inject_Z 1)); [done| | |done].
      - intros k' Hk'. simpl.
        assert (k' ∈ l1 ++ k :: l2) as Hin by (apply elem_of_app; by left).
        apply (off_cycle_miss cur k); [done| |by intros ->|].
        + apply Hsl in Hin as [Hin|[? _]]; [|done].
          apply Hsub. fold c. rewrite Hc. apply elem_of_app. right. by right.
        + intros ->. apply Hsl in Hin as [[->|Hin]%elem_of_cons|[_ Hin]]; [done|done|].
          apply Hin. rewrite Hc. apply elem_of_app. right. by left.
      - simpl. rewrite Hreads.
        + by rewrite (Hone _ Hleg).
        + apply Hcomplete. split; [|split; [|done]]; apply Hsub; fold c; rewrite Hc;
            apply elem_of_app; right; [by left|right; by left]. }
    simpl. rewrite decide_True by (rewrite length_app; simpl; lia).
    change (for_k xv ?st (l1 ++ k :: l2)) with (body xv st). rewrite Hbody.
    unfold advance. simpl. apply IH.
    + by rewrite <- app_assoc.
    + apply NoDup_app in Hndsl as (H1 & Hdis & [_ H2]%NoDup_cons).
      apply NoDup_app. split; [done|]. split; [|done].
      intros x Hx1 Hx2. apply (Hdis x Hx1). by right.
    + intros k'. pose proof (Hsl k') as Hk'.
      rewrite elem_of_app, elem_of_cons in Hk'. rewrite elem_of_cons in Hk'.
      rewrite elem_of_app.
      assert (k ∉ l2) as Hk2.
      { by apply NoDup_app in Hndsl as (_ & _ & [? _]%NoDup_cons). }
      assert (k ∈ c) as Hkc.
      { rewrite Hc. apply elem_of_app. right. right. by left. }
      split.
      * intros Hin.
        assert (k' ≠ k) as Hne by (intros ->; by destruct Hin).
        destruct Hk' as [Hk' _].
        destruct Hk' as [[?|?]|?];
          [destruct Hin; [by left|right; by right]|done|by left|by right].
      * intros Hin.
        assert (k' ≠ k) as Hne by (intros ->; by destruct Hin as [?|[_ ?]]).
        destruct Hk' as [_ Hk'].
        destruct Hk' as [?|[?|?]];
          [destruct Hin; [left; by right|by right]|by left|done|by right].
    + by exists m.
Qed.
End SubtourHangs.

Lemma values_of_reads (distances : gmap edge Z) (xa : edge → Z) :
  reads (values_of distances xa) distances xa.
Proof.
  intros e [d Hd]%elem_of_dom. unfold values_of. by rewrite map_lookup_imap, Hd.
Qed.

(** X11: when the solver's values read back a solution of the model
    before the subtour loop (distinct sites, complete distances) that has
    a cycle through ['org'] missing some site, the tour cell never
    returns: it follows the cycle, finds no unvisited site with edge value
    1 at the cycle's last site, and repeats the pass for ever. *)
Theorem decode_hangs_on_subtour (sites rest : list site) (distances : gmap edge Z)
    (dnb : notebook) (xa : edge → Z) (ua : site → Z) (xv : gmap edge Q) :
  NoDup sites → complete sites distances →
  degree_model sites distances = Ok dnb → feasible dnb (assign xa ua) →
  cycle_in xa ("org" :: rest) → (∀ s, s ∈ "org" :: rest → s ∈ sites) →
  (∃ m, m ∈ sites ∧ m ∉ "org" :: rest) →
  reads xv distances xa →
  ∀ fuel, decode sites xv distances fuel = None.
Proof.
  intros Hnd Hc Hdm Hdeg%(degree_feasible_iff sites distances Hc _ _ dnb Hdm)
    Hcyc Hsub Hm Hreads fuel.
  assert ("org" ∈ sites) as (l1 & l2 & Hs & Ho1)%list_elem_of_split_l
    by (apply Hsub; by left).
  pose proof Hnd as Hnd'. rewrite Hs in Hnd'.
  pose proof Hnd' as (Hn1 & Hdis & [Ho2 Hn2]%NoDup_cons)%NoDup_app.
  assert (while xv fuel {| sites_left := l1 ++ l2; org := "org"; tour := ["org"] |}
          = None) as Hhang; [|
    unfold decode, decode_from, start;
    rewrite (move_split _ l1 "org" l2) by done; simpl; by rewrite Hhang].
  apply (hang_follow sites rest distances xa xv Hc Hdeg Hcyc Hsub Hreads rest
           [] "org" (l1 ++ l2) fuel); [done| | |done].
  - apply NoDup_app. split; [done|]. split; [|done].
    intros x Hx1 Hx2. apply (Hdis x Hx1). by right.
  - intros k. destruct Hcyc as (_ & [Hor _]%NoDup_cons & _).
    rewrite elem_of_app, Hs, elem_of_app, !elem_of_cons. split.
    + intros Hk. destruct (decide (k ∈ rest)) as [?|Hkr]; [by left|right].
      split; [destruct Hk; [by left|right; by right]|].
      intros [->|?]; [by destruct Hk|done].
    + intros [Hk|[[?|[->|?]] Hk]]; [|by left|by destruct Hk; left|by right].
      assert (k ∈ l1 ++ "org" :: l2) as [?|[->|?]%elem_of_cons]%elem_of_app;
        [rewrite <- Hs; apply Hsub; by right|by left|done|by right].
Qed.

Lemma decode_hangs_on_subtour_witness :
  decode abcd_sites
    (values_of (distances_cell abcd_sites (λ _ _, 10)) abcd_subtours)
    (distances_cell abcd_sites (λ _ _, 10)) 1000 = None.
Proof.
  destruct (degree_model abcd_sites (distances_cell abcd_sites (λ _ _, 10)))
    as [dnb|] eqn:Hdm; [|by rewrite degree_model_Ok in Hdm].
  revert dnb Hdm. generalize 1000%nat. intros fuel dnb Hdm. revert fuel.
  apply (decode_hangs_on_subtour abcd_sites ["A"] _ dnb abcd_subtours (λ _, 0)).
  - exact abcd_sites_NoDup.
  - apply distances_cell_complete.
  - exact Hdm.
  - apply (degree_feasible_iff abcd_sites _ (distances_cell_complete _ _) _ _ dnb Hdm).
    apply (two_cycles_degree ["org"; "A"] ["B"; "C"]);
      [exact abcd_sites_NoDup|simpl; lia|simpl; lia].
  - split; [simpl; lia|]. split.
    + apply NoDup_cons. split; [by intros ?%list_elem_of_singleton|apply NoDup_singleton].
    + intros e He. unfold abcd_subtours, two_cycles, indicator.
      rewrite decide_True; [done|]. apply elem_of_app. by left.
  - clear Hdm. intros s Hs. unfold abcd_sites. rewrite !elem_of_cons in Hs |- *.
    destruct Hs as [->|[->|Hs]]; [by left|right; by left|by apply elem_of_nil in Hs].
  - clear Hdm. exists "B". unfold abcd_sites. rewrite !elem_of_cons.
    split; [right; right; by left|].
    intros [H|[H|H]]; [discriminate H|discriminate H|by apply elem_of_nil in H].
  - apply values_of_reads.
Defined.

(** ** Bounds on the reported total *)

Lemma sum_bounds (lo hi : Z) (l : list Z) :
  Forall (λ d, lo ≤ d ≤ hi) l →
  Z.of_nat (length l) * lo ≤ sum l ≤ Z.of_nat (length l) * hi.
Proof.
  unfold sum. induction 1 as [|d l Hd _ IH]; simpl foldr; simpl length; lia.
Qed.

(** X12: when every generated distance lies between [lo] and [hi] (the
    notebook draws them from 10 to 49), the total reported for any
    returned sequence lies between [N*lo] and [N*hi]: the sequence has
    exactly [N] legs, each a generated distance. *)
Theorem total_within_bounds (org0 : site) (sites : list site) (d : site → site → Z)
    (lo hi : Z) (xv : gmap edge Q) (fuel : nat) (t : list site) (cost : Z) :
  (∀ a b, lo ≤ d a b ≤ hi) →
  decode_from org0 sites xv (distances_cell sites d) fuel = Some (Ok (t, cost)) →
  length t = S (length sites)
  ∧ Z.of_nat (length sites) * lo ≤ cost ≤ Z.of_nat (length sites) * hi.
Proof.
  intros Hd (st0 & st & legs & Hs & Hw & -> & Hlegs & ->)%decode_from_Ok.
  pose proof (start_partition _ _ _ Hs) as Hp0.
  apply (while_invariant (partition sites) xv) in Hw as [Hp Hnil];
    [|intros; by eapply body_partition|done].
  unfold partition in Hp. rewrite Hnil, app_nil_r in Hp.
  assert (length (tour st ++ ["org"]) = S (length sites)) as Hlen.
  { rewrite length_app, Hp. simpl. lia. }
  split; [done|].
  rewrite tour_legs_pairs in Hlegs. apply comprehension_getitem_inv in Hlegs.
  assert (length legs = length sites) as <-.
  { rewrite <- (Forall2_length _ _ _ Hlegs), length_legs_of, Hlen. lia. }
  apply sum_bounds. eapply Forall2_Forall_r; [exact Hlegs|].
  apply Forall_forall. intros [a b] _ dd Hdd.
  rewrite distances_cell_lookup in Hdd. case_decide; [|done].
  injection Hdd as <-. apply Hd.
Qed.

Lemma total_within_bounds_witness :
  3 * 10 ≤ 30 ≤ 3 * 10.
Proof.
  exact (proj2 (total_within_bounds "org" abc_sites (λ _ _, 10) 10 10 abc_ones 3
                  ["org"; "A"; "B"; "org"] 30 ltac:(intros; lia) eq_refl)).
Defined.
